(** * Verification of [dependencies.py]

    A shallow embedding of the Haiku package dependency lister
    ([dependencies.py]) and proofs of the properties its specification
    states about it.

    Modelling conventions.
    - A Python [str] is a [string]; a character stands for a code point
      below 256.
    - A Python [set] of strings is a [gset string], a [dict] keyed by strings
      a [gmap string _], a [list] a [list].  A [defaultdict] is read with a
      total lookup that yields the default value on a missing key; that
      Python also stores the default under the key is not observable in
      this program.
    - Iterating over a Python [set] visits its elements in an unspecified
      order.  The executable functions iterate over [elements]; the general
      properties below are stated so that they do not depend on that order
      (membership, counts, permutations), and the work loop of the closure
      traversal, which uses [set.pop], is additionally given as a step
      relation in which any element may be popped and the requirements
      visited in any order.  Outputs evaluated on a scenario are listed in
      the order in which the model iterates.
    - The external programs and the file system are a [platform] record.
    - A raised exception is a value [Raise e] of the [result] type; the
      output of a command is the list of what its [print] calls print. *)

From stdpp Require Import gmap strings list fin_maps.
From Stdlib Require Import ZArith Ascii.

Set Warnings "-clear-no-such-hyp".

Open Scope string_scope.
Open Scope nat_scope.
Open Scope list_scope.

(** ** Python string primitives *)

Module Py.

Definition dquote : ascii := "034"%char.
Definition backslash : ascii := "092"%char.
Definition newline : ascii := "010"%char.
Definition tab : ascii := "009"%char.

(** [str.isspace] on one character (code points below 256). *)
Definition isspace (c : ascii) : bool :=
  let n := nat_of_ascii c in
  (((9 <=? n) && (n <=? 13)) || ((28 <=? n) && (n <=? 32))
   || (n =? 133) || (n =? 160))%nat.

(** [c in s] for a one-character [c]. *)
Fixpoint char_in (c : ascii) (s : string) : bool :=
  match s with
  | EmptyString => false
  | String c' rest => if Ascii.eqb c c' then true else char_in c rest
  end.

(** [s.find(c)] for a one-character [c]: the first index, or [-1]. *)
Fixpoint find (c : ascii) (s : string) : Z :=
  match s with
  | EmptyString => (-1)%Z
  | String c' rest =>
      if Ascii.eqb c c' then 0%Z
      else match find c rest with
           | Zneg _ => (-1)%Z
           | i => (i + 1)%Z
           end
  end.

(** [s[n:]] for [n >= 0]. *)
Fixpoint slice_from (n : nat) (s : string) : string :=
  match n, s with
  | O, _ => s
  | S _, EmptyString => EmptyString
  | S k, String _ rest => slice_from k rest
  end.

(** [s[:-1]]. *)
Fixpoint drop_last (s : string) : string :=
  match s with
  | EmptyString => EmptyString
  | String _ EmptyString => EmptyString
  | String c rest => String c (drop_last rest)
  end.

(** [s.startswith(p)]. *)
Definition startswith (s p : string) : bool := String.prefix p s.

(** [s.replace(old, new)] for an empty [old]: [new] goes before every
    character and at the end. *)
Fixpoint replace_empty (new s : string) : string :=
  match s with
  | EmptyString => new
  | String c rest => new +:+ String c (replace_empty new rest)
  end.

(** [s.replace(old, new)] for a non-empty [old]: the occurrences are
    replaced from left to right without overlap; [skip] counts the
    characters of a matched occurrence still to be dropped. *)
Fixpoint replace_from (old new : string) (skip : nat) (s : string) : string :=
  match s with
  | EmptyString => EmptyString
  | String c rest =>
      match skip with
      | S k => replace_from old new k rest
      | O =>
          if String.prefix old s
          then new +:+ replace_from old new (String.length old - 1) rest
          else String c (replace_from old new 0 rest)
      end
  end.

Definition replace (s old new : string) : string :=
  match old with
  | EmptyString => replace_empty new s
  | _ => replace_from old new 0 s
  end.

(** Line boundaries of [str.splitlines] (code points below 256). *)
Definition is_linebreak (c : ascii) : bool :=
  let n := nat_of_ascii c in
  (((10 <=? n) && (n <=? 13)) || ((28 <=? n) && (n <=? 30)) || (n =? 133))%nat.

(** [s.splitlines()]: [cur] is the line read so far; a carriage return
    followed by a line feed is one boundary; no empty last line. *)
Fixpoint splitlines_from (cur s : string) : list string :=
  match s with
  | EmptyString => match cur with EmptyString => [] | _ => [cur] end
  | String c rest =>
      if is_linebreak c then
        cur :: match rest with
               | String c' rest' =>
                   if Ascii.eqb c "013"%char && Ascii.eqb c' "010"%char
                   then splitlines_from EmptyString rest'
                   else splitlines_from EmptyString rest
               | EmptyString => splitlines_from EmptyString rest
               end
      else splitlines_from (cur +:+ String c EmptyString) rest
  end.

Definition splitlines (s : string) : list string := splitlines_from EmptyString s.

End Py.

(** ** Exceptions *)

Inductive exn : Type :=
  | KeyError (key : string)
  | CalledProcessError (cmd : string)
  | UsageError (msg : string).

Inductive result (A : Type) : Type :=
  | Ok (a : A)
  | Raise (e : exn).
Arguments Ok {A} a.
Arguments Raise {A} e.

Definition rbind {A B : Type} (r : result A) (k : A → result B) : result B :=
  match r with
  | Ok a => k a
  | Raise e => Raise e
  end.

Notation "x ←r r ; k" := (rbind r (λ x, k))
  (at level 100, r at next level, k at level 200, right associativity).

(** [d[k]] on a plain [dict]: a missing key raises [KeyError]. *)
Definition getitem {V : Type} (d : gmap string V) (k : string) : result V :=
  match d !! k with
  | Some v => Ok v
  | None => Raise (KeyError k)
  end.

(** A [for] loop whose body may raise: the first exception ends it. *)
Fixpoint rmap {A B : Type} (f : A → result B) (l : list A) : result (list B) :=
  match l with
  | [] => Ok []
  | a :: l' => b ←r f a; bs ←r rmap f l'; Ok (b :: bs)
  end.

(** ** Package records and their extraction *)

Record package_info : Type := mk_package {
  name : string;
  path : string;
  requires : gset string;
  provides : gset string;
}.

Definition WARNING : string :=
"Be aware that this program:
* assumes things that may be wrong (that there's no more detail here should make you afraid of using its output for anything important)
* does not check versions (if A provides dep=1, B provides dep=2 and C requires dep>=2, it will list both A and B as dependencies of C)
* does not know if a package was installed on purpose or as a dependency
* understands 'supplements' as 'requires'
* does not look for disjoint sets
* sloppily parses the output of the 'package' command run on each of the package files found
".

Definition forbidden : string := "-=>!</".

(** The loop of [extract_entity]: the prefix of [entity] before the first
    character that is white space or forbidden. *)
Fixpoint entity_prefix (entity : string) : string :=
  match entity with
  | EmptyString => EmptyString
  | String char rest =>
      if Py.isspace char || Py.char_in char forbidden then EmptyString
      else String char (entity_prefix rest)
  end.

Definition extract_entity (line : string) : string :=
  entity_prefix (Py.slice_from (Z.to_nat (Py.find ":" line + 2)) line).

(** The external world: what [/bin/finddir which] and
    [/bin/package list -i file] return (exit status and standard output),
    and the files matching [*.hpkg] in a directory. *)
Record platform : Type := mk_platform {
  run_finddir : string → Z * string;
  run_package_list : string → Z * string;
  glob_hpkg : string → list string;
}.

(** [pathlib.Path(s)] as far as it matters here: the empty path is the
    current directory. *)
Definition Path (s : string) : string :=
  match s with
  | EmptyString => "."
  | _ => s
  end.

Definition read_line (info : package_info) (line : string) : package_info :=
  if Py.startswith line (String Py.tab "provides: ") then
    {| name := name info; path := path info;
       requires := requires info;
       provides := provides info ∪ {[extract_entity line]} |}
  else if Py.startswith line (String Py.tab "requires: ")
          || Py.startswith line (String Py.tab "supplements: ") then
    {| name := name info; path := path info;
       requires := requires info ∪ {[extract_entity line]};
       provides := provides info |}
  else if Py.startswith line (String Py.tab "name: ") then
    {| name := extract_entity line; path := path info;
       requires := requires info;
       provides := provides info |}
  else info.

Definition read_package (w : platform) (package : string) : result package_info :=
  let info :=
    {| name := EmptyString; path := package; requires := ∅; provides := ∅ |} in
  let '(returncode, stdout) := run_package_list w package in
  if (returncode =? 0)%Z
  then Ok (foldl read_line info (Py.splitlines stdout))
  else Raise (CalledProcessError "/bin/package").

Definition finddir (w : platform) (which : string) : string :=
  let '(returncode, stdout) := run_finddir w which in
  if (returncode =? 0)%Z then Py.drop_last stdout else EmptyString.

Definition package_dirs : list string :=
  ["B_SYSTEM_PACKAGES_DIRECTORY"; "B_USER_PACKAGES_DIRECTORY"].

(** The packages one directory constant contributes. *)
Definition packages_of_dir (w : platform) (package_dir : string)
  : result (list package_info) :=
  rmap (read_package w) (glob_hpkg w (Path (finddir w package_dir))).

Definition get_packages (w : platform) : result (list package_info) :=
  dirs ←r rmap (packages_of_dir w) package_dirs; Ok (List.concat dirs).

(** ** Escaping for DOT *)

Definition escape_DOT_string (str : string) : string :=
  Py.replace str (String Py.backslash (String Py.dquote EmptyString))
    (String Py.backslash (String Py.backslash (String Py.dquote EmptyString))).

(** The second statement of the source calls [replace] and drops its
    result. *)
Definition escape_DOT_label (str justify : string) : string :=
  let str := escape_DOT_string str in
  let _ := Py.replace str (String Py.backslash EmptyString)
             (String Py.backslash (String Py.backslash (String Py.dquote EmptyString))) in
  if String.eqb justify "left" then
    Py.replace str (String Py.newline EmptyString) (String Py.backslash "l")
  else if String.eqb justify "right" then
    Py.replace str (String Py.newline EmptyString) (String Py.backslash "r")
  else str.

Definition DOT_id (name : string) : string :=
  String Py.dquote (escape_DOT_string name) +:+ String Py.dquote EmptyString.

(** ** Command line arguments *)

Record args : Type := mk_args {
  i_know_what_im_doing : bool;
  all_edges : bool;
  all_requirements : bool;
  package : list string;
}.

(** ** Indices built from the package list

    [do_requirements_graph] and [do_level1_graph] fill [package_map],
    [providers] and (the latter) [requirers] in one loop over the packages;
    the three structures do not read one another, so each is given here as
    a loop of its own. *)

Definition append_name (package_name : string)
    (index : gmap string (list string)) (entity : string)
  : gmap string (list string) :=
  <[entity := (index !!! entity) ++ [package_name]]> index.

Definition index_package (field : package_info → gset string)
    (index : gmap string (list string)) (p : package_info)
  : gmap string (list string) :=
  foldl (append_name (name p)) index (elements (field p)).

Definition build_index (field : package_info → gset string)
    (packages : list package_info) : gmap string (list string) :=
  foldl (index_package field) ∅ packages.

Definition build_providers := build_index provides.
Definition build_requirers := build_index requires.

Definition build_package_map (packages : list package_info)
  : gmap string package_info :=
  foldl (λ m p, <[name p := p]> m) ∅ packages.

(** ** [do_leaves] *)

(** The [requirements] set: the union of every package's [requires]. *)
Definition requirements_of (packages : list package_info) : gset string :=
  foldl (λ requirements p, requirements ∪ requires p) ∅ packages.

(** The inner [for ... break ... else]: [true] when the loop breaks. *)
Definition provides_required (requirements : gset string) (p : package_info)
  : bool :=
  existsb (λ entity, bool_decide (entity ∈ requirements))
    (elements (provides p)).

Definition leaves (packages : list package_info) : list package_info :=
  List.filter (λ p, negb (provides_required (requirements_of packages) p))
    packages.

Definition leaf_line (p : package_info) : string :=
  name p +:+ " " +:+ path p.

(** The printed strings of [do_leaves], one per [print] call. *)
Definition do_leaves (a : args) (w : platform) : result (list string) :=
  packages ←r get_packages w;
  Ok ((if i_know_what_im_doing a then [] else [WARNING])
      ++ map leaf_line (leaves packages)).

(** ** Printed statements

    Each [print] call of the two graph commands is one constructor;
    [render] gives the text it prints. *)

Inductive stmt : Type :=
  | Line (text : string)
  | WarningLabel
  | Node (package_name : string)
  | RedNode (package_name : string)
  | ErrorNode (package_name : string)
  | LabelledEdge (node dependency entity : string)
  | Edge (node required : string).

Definition quoted (s : string) : string :=
  String Py.dquote s +:+ String Py.dquote EmptyString.

Definition render (s : stmt) : string :=
  match s with
  | Line text => text
  | WarningLabel => "label=" +:+ quoted (escape_DOT_label WARNING "left")
  | Node n => DOT_id n
  | RedNode n => quoted (escape_DOT_string n) +:+ " [fillcolor=red]"
  | ErrorNode n => quoted (escape_DOT_string n)
  | LabelledEdge node dependency entity =>
      DOT_id node +:+ " -> " +:+ DOT_id dependency
      +:+ " [label=" +:+ quoted (escape_DOT_label entity "center") +:+ "]"
  | Edge node required => DOT_id node +:+ " -> " +:+ DOT_id required
  end.

Global Instance stmt_eq_dec : EqDecision stmt.
Proof. solve_decision. Defined.

(** ** Closure traversal: [do_requirements_graph] *)

Record closure_state : Type := mk_closure {
  graph_packages : gset string;
  visited : gset string;
  printed : list stmt;
}.

Section closure.
Variable package_map : gmap string package_info.
Variable providers : gmap string (list string).

(** The loop over the seeds that prints their nodes and marks the
    unknown ones visited. *)
Definition seed_node (st : list stmt * gset string) (package_name : string)
  : list stmt * gset string :=
  match package_map !! package_name with
  | Some _ => (st.1 ++ [Node package_name], st.2)
  | None => (st.1 ++ [RedNode package_name], st.2 ∪ {[package_name]})
  end.

(** The innermost loop: one edge per provider of [entity]. *)
Definition entity_edges (node entity : string) : result (list stmt) :=
  rmap (λ dependency_name,
          _ ←r getitem package_map dependency_name;
          Ok (LabelledEdge node dependency_name entity))
       (providers !!! entity).

(** The body of the work loop for a popped, unvisited, known package,
    with its requirements visited in the order [entities]: the printed
    edges and the names added to the work set. *)
Definition expand (package_name : string) (entities : list string)
  : result (list stmt * gset string) :=
  printed_edges ←r rmap (entity_edges package_name) entities;
  Ok (List.concat printed_edges,
      list_to_set (entities ≫= (λ entity, providers !!! entity))).

(** One iteration of [while graph_packages], for any popped element and
    any iteration order of the requirements. *)
Inductive closure_step : closure_state → closure_state → Prop :=
  | step_visited st p :
      p ∈ graph_packages st →
      p ∈ visited st →
      closure_step st
        {| graph_packages := graph_packages st ∖ {[p]};
           visited := visited st;
           printed := printed st |}
  | step_expand st p info entities new_edges new_names :
      p ∈ graph_packages st →
      p ∉ visited st →
      package_map !! p = Some info →
      entities ≡ₚ elements (requires info) →
      expand p entities = Ok (new_edges, new_names) →
      closure_step st
        {| graph_packages := graph_packages st ∖ {[p]} ∪ new_names;
           visited := visited st ∪ {[p]};
           printed := printed st ++ new_edges |}.

(** The work loop run with [set.pop] taking the first of [elements];
    [None] when [fuel] iterations were not enough. *)
Fixpoint closure_loop (fuel : nat) (st : closure_state)
  : option (result closure_state) :=
  match fuel with
  | O => None
  | S fuel' =>
      match elements (graph_packages st) with
      | [] => Some (Ok st)
      | package_name :: _ =>
          let rest := graph_packages st ∖ {[package_name]} in
          if bool_decide (package_name ∈ visited st) then
            closure_loop fuel'
              {| graph_packages := rest;
                 visited := visited st;
                 printed := printed st |}
          else
            match getitem package_map package_name with
            | Raise e => Some (Raise e)
            | Ok info =>
                match expand package_name (elements (requires info)) with
                | Raise e => Some (Raise e)
                | Ok (new_edges, new_names) =>
                    closure_loop fuel'
                      {| graph_packages := rest ∪ new_names;
                         visited := visited st ∪ {[package_name]};
                         printed := printed st ++ new_edges |}
                end
            end
      end
  end.

(** Every name the loop can ever hold. *)
Definition universe (seeds : gset string) : gset string :=
  dom package_map ∪ seeds.

(** A bound on the iterations left. *)
Definition closure_measure (seeds : gset string) (st : closure_state) : nat :=
  size (graph_packages st)
  + (size (universe seeds) + 1) * size (universe seeds ∖ visited st).

Definition closure_init (seeds : gset string) : list stmt * closure_state :=
  let '(nodes, unknown) := foldl seed_node ([], ∅) (elements seeds) in
  (nodes,
   {| graph_packages := seeds; visited := unknown; printed := [] |}).
End closure.

Definition requirements_graph (a : args) (packages : list package_info)
  : option (result (list stmt)) :=
  let package_map := build_package_map packages in
  let providers := build_providers packages in
  let seeds : gset string := list_to_set (package a) in
  let '(nodes, st) := closure_init package_map seeds in
  match closure_loop package_map providers
          (S (closure_measure package_map seeds st)) st with
  | None => None
  | Some (Raise e) => Some (Raise e)
  | Some (Ok final) =>
      Some (Ok ([Line "digraph {"]
                ++ (if i_know_what_im_doing a then [] else [WarningLabel])
                ++ [Line "node [style=filled fillcolor=aliceblue]";
                    Line "{ node [fillcolor=lightgrey]"]
                ++ nodes ++ [Line "}"]
                ++ printed final ++ [Line "}"]))
  end.

Definition do_requirements_graph (a : args) (w : platform)
  : option (result (list stmt)) :=
  match package a with
  | [] => Some (Raise (UsageError
      "a package list is required with the --all-requirements option"))
  | _ =>
      match get_packages w with
      | Raise e => Some (Raise e)
      | Ok packages => requirements_graph a packages
      end
  end.

(** ** Bounded traversal: [do_level1_graph] *)

(** The two containers [edges] may hold: a [set], or the [list_with_alias]
    subclass of [list] whose [add] appends and whose [update] extends. *)
Class Collector (C : Type) : Type := {
  c_new : C;
  c_add : string → C → C;
  c_update : list string → C → C;
  c_items : C → list string;
}.

Global Instance set_collector : Collector (gset string) := {|
  c_new := ∅;
  c_add item s := s ∪ {[item]};
  c_update iterable s := s ∪ list_to_set iterable;
  c_items := elements;
|}.

Global Instance list_with_alias : Collector (list string) := {|
  c_new := [];
  c_add item l := l ++ [item];
  c_update iterable l := l ++ iterable;
  c_items l := l;
|}.

Record level1_state (C : Type) : Type := mk_level1 {
  edges : gmap string C;
  outside_nodes : gset string;
  error_nodes : gset string;
}.
Arguments mk_level1 {C} _ _ _.
Arguments edges {C} _.
Arguments outside_nodes {C} _.
Arguments error_nodes {C} _.

Section level1.
Context {C : Type} `{Collector C}.
Variable package_map : gmap string package_info.
Variables providers requirers : gmap string (list string).
Variable interest : gset string.

(** [edges[key]] on the [defaultdict]. *)
Definition edges_get (e : gmap string C) (key : string) : C :=
  default c_new (e !! key).

(** [for dependency in dependencies: ...] *)
Definition mark_outside (outside : gset string) (dependency : string)
  : gset string :=
  if bool_decide (dependency ∈ interest) then outside
  else outside ∪ {[dependency]}.

(** [for dependency in requirers[entity]: ...] *)
Definition add_dependent (package_name : string) (st : level1_state C)
    (dependency : string) : level1_state C :=
  if bool_decide (dependency ∈ interest) then st
  else
    {| edges := <[dependency :=
                   c_add package_name (edges_get (edges st) dependency)]>
                  (edges st);
       outside_nodes := outside_nodes st ∪ {[dependency]};
       error_nodes := error_nodes st |}.

(** The body of [for package_name in graph_packages]. *)
Definition level1_package (st : level1_state C) (package_name : string)
  : level1_state C :=
  match package_map !! package_name with
  | None =>
      {| edges := edges st;
         outside_nodes := outside_nodes st;
         error_nodes := error_nodes st ∪ {[package_name]} |}
  | Some info =>
      let dependencies :=
        foldl (λ deps entity, c_update (providers !!! entity) deps)
              (edges_get (edges st) package_name)
              (elements (requires info)) in
      let st1 :=
        {| edges := <[package_name := dependencies]> (edges st);
           outside_nodes :=
             foldl mark_outside (outside_nodes st) (c_items dependencies);
           error_nodes := error_nodes st |} in
      foldl (λ st' entity,
               foldl (add_dependent package_name) st' (requirers !!! entity))
            st1 (elements (provides info))
  end.

Definition level1_loop (order : list string) : level1_state C :=
  foldl level1_package
    {| edges := ∅; outside_nodes := ∅; error_nodes := ∅ |} order.

(** The recorded edges as (source, destination) pairs, in printing
    order. *)
Definition edge_pairs (e : gmap string C) : list (string * string) :=
  map_to_list e ≫= (λ kv, (λ required, (kv.1, required)) <$> c_items kv.2).

(** The body of [for package, requirements in edges.items()]. *)
Definition print_edges (item : string * C) : result (list stmt) :=
  _ ←r getitem package_map item.1;
  rmap (λ required_package,
          _ ←r getitem package_map required_package;
          Ok (Edge item.1 required_package))
       (c_items item.2).

Definition print_outside (package_name : string) : result stmt :=
  _ ←r getitem package_map package_name; Ok (Node package_name).

Definition level1_print (iknow : bool) (st : level1_state C)
  : result (list stmt) :=
  outside ←r rmap print_outside (elements (outside_nodes st));
  printed_edges ←r rmap print_edges (map_to_list (edges st));
  Ok ([Line "digraph {"; Line "node [style=filled]"]
      ++ (if iknow then [] else [WarningLabel])
      ++ (if bool_decide (error_nodes st = ∅) then []
          else [Line "{ node [fillcolor=red]"]
               ++ (ErrorNode <$> elements (error_nodes st))
               ++ [Line "}"])
      ++ (if bool_decide (outside_nodes st = ∅) then []
          else [Line "{ node [fillcolor=aliceblue]"] ++ outside ++ [Line "}"])
      ++ List.concat printed_edges ++ [Line "}"]).
End level1.

(** The set of packages of interest: the ones named on the command line,
    or every known package when none is named. *)
Definition level1_interest (a : args) (package_map : gmap string package_info)
  : gset string :=
  match package a with
  | [] => dom package_map
  | names => list_to_set names
  end.

Definition level1_result (C : Type) `{Collector C}
    (packages : list package_info) (interest : gset string)
  : level1_state C :=
  level1_loop (build_package_map packages) (build_providers packages)
    (build_requirers packages) interest (elements interest).

Definition level1_graph (a : args) (packages : list package_info)
  : result (list stmt) :=
  let package_map := build_package_map packages in
  let interest := level1_interest a package_map in
  if all_edges a then
    level1_print package_map (i_know_what_im_doing a)
      (level1_result (list string) packages interest)
  else
    level1_print package_map (i_know_what_im_doing a)
      (level1_result (gset string) packages interest).

Definition do_level1_graph (a : args) (w : platform) : result (list stmt) :=
  packages ←r get_packages w; level1_graph a packages.

Definition do_graph (a : args) (w : platform) : option (result (list stmt)) :=
  if all_requirements a then do_requirements_graph a w
  else Some (do_level1_graph a w).

(** ** Specification-level notions *)

(** The union of every package's [requires] set. *)
Definition all_required (packages : list package_info) : gset string :=
  ⋃ (requires <$> packages).

(** The number of occurrences of [x] in [l]. *)
Definition occ {A : Type} `{EqDecision A} (x : A) (l : list A) : nat :=
  length (filter (λ y, y = x) l).
Global Arguments occ : simpl never.

(** The edges the closure traversal prints when it expands [package_name]
    with its requirements visited in the order [entities]. *)
Definition edges_of (providers : gmap string (list string))
    (package_name : string) (entities : list string) : list stmt :=
  entities ≫= (λ entity,
    (λ dependency_name, LabelledEdge package_name dependency_name entity)
    <$> providers !!! entity).

(** The states the work loop of the closure traversal can be in, for any
    choice of the popped elements. *)
Definition closure_reachable (packages : list package_info)
    (seeds : gset string) (st : closure_state) : Prop :=
  rtc (closure_step (build_package_map packages) (build_providers packages))
      (closure_init (build_package_map packages) seeds).2 st.

(** The names reachable from the seeds along requires-to-providers
    links. *)
Inductive closure_reach (package_map : gmap string package_info)
    (providers : gmap string (list string)) (seeds : gset string)
  : string → Prop :=
  | reach_seed n : n ∈ seeds → closure_reach package_map providers seeds n
  | reach_dep p info c d :
      closure_reach package_map providers seeds p →
      package_map !! p = Some info →
      c ∈ requires info → d ∈ providers !!! c →
      closure_reach package_map providers seeds d.

(** What holds of every state of the work loop. *)
Record closure_inv (package_map : gmap string package_info)
    (providers : gmap string (list string)) (seeds : gset string)
    (st : closure_state) : Prop := mk_closure_inv {
  inv_work : graph_packages st ⊆ universe package_map seeds;
  inv_visited : visited st ⊆ universe package_map seeds;
  inv_unknown :
    ∀ n, n ∈ seeds → package_map !! n = None → n ∈ visited st;
  inv_seeds : seeds ⊆ graph_packages st ∪ visited st;
  inv_closed :
    ∀ p info c d,
      p ∈ visited st → package_map !! p = Some info →
      c ∈ requires info → d ∈ providers !!! c →
      d ∈ graph_packages st ∪ visited st;
  inv_edges :
    ∀ p d c,
      occ (LabelledEdge p d c) (printed st)
      = match package_map !! p with
        | Some info =>
            if decide (p ∈ visited st ∧ c ∈ requires info)
            then occ d (providers !!! c) else 0
        | None => 0
        end;
  inv_only_edges :
    ∀ s, s ∈ printed st → ∃ p d c, s = LabelledEdge p d c;
  inv_reach :
    ∀ n, n ∈ graph_packages st ∪ visited st →
         closure_reach package_map providers seeds n;
}.

(** The node statement printed for a seed. *)
Definition seed_stmt (package_map : gmap string package_info)
    (package_name : string) : stmt :=
  match package_map !! package_name with
  | Some _ => Node package_name
  | None => RedNode package_name
  end.

(** The three packages of the specification's scenarios. *)
Definition pkg_A : package_info :=
  {| name := "A"; path := "A.hpkg"; requires := ∅; provides := {["x"]} |}.
Definition pkg_B : package_info :=
  {| name := "B"; path := "B.hpkg"; requires := {["x"]}; provides := {["y"]} |}.
Definition pkg_C : package_info :=
  {| name := "C"; path := "C.hpkg"; requires := {["y"]}; provides := ∅ |}.
Definition scenario : list package_info := [pkg_A; pkg_B; pkg_C].

(** A name with an embedded double quote: [a], the quote, [b]. *)
Definition quote_name : string := String "a" (String Py.dquote "b").

(** A platform on which the system package directory is found and empty,
    the lookup of the user package directory fails, and the current
    directory holds one package file. *)
Definition stray_platform : platform :=
  {| run_finddir which :=
       if String.eqb which "B_SYSTEM_PACKAGES_DIRECTORY"
       then (0%Z, "/boot/system/packages" +:+ String Py.newline EmptyString)
       else (1%Z, EmptyString);
     run_package_list file :=
       (0%Z, String Py.tab "name: stray" +:+ String Py.newline EmptyString);
     glob_hpkg dir :=
       if String.eqb dir "." then ["stray.hpkg"] else [] |}.

(** What the two containers have in common. *)
Class CollectorLaws (C : Type) `{Collector C} : Prop := {
  c_items_new : c_items (c_new : C) = [];
  elem_of_c_add item (c : C) y :
    y ∈ c_items (c_add item c) ↔ y ∈ c_items c ∨ y = item;
  elem_of_c_update iterable (c : C) y :
    y ∈ c_items (c_update iterable c) ↔ y ∈ c_items c ∨ y ∈ iterable;
}.

(** [d] is listed as a provider of a capability the known package [p]
    requires. *)
Definition dep_of (package_map : gmap string package_info)
    (providers : gmap string (list string)) (p d : string) : Prop :=
  ∃ info c, package_map !! p = Some info ∧ c ∈ requires info
            ∧ d ∈ providers !!! c.

(** [q] is listed as requiring a capability the known package [p]
    provides. *)
Definition dependent_of (package_map : gmap string package_info)
    (requirers : gmap string (list string)) (p q : string) : Prop :=
  ∃ info c, package_map !! p = Some info ∧ c ∈ provides info
            ∧ q ∈ requirers !!! c.

(** What the bounded traversal computes for a command line: the recorded
    edges in printing order, the outside nodes and the error nodes. *)
Definition level1_edges (a : args) (packages : list package_info)
  : list (string * string) :=
  let interest := level1_interest a (build_package_map packages) in
  if all_edges a
  then edge_pairs (edges (level1_result (list string) packages interest))
  else edge_pairs (edges (level1_result (gset string) packages interest)).

Definition level1_outside (a : args) (packages : list package_info)
  : gset string :=
  let interest := level1_interest a (build_package_map packages) in
  if all_edges a
  then outside_nodes (level1_result (list string) packages interest)
  else outside_nodes (level1_result (gset string) packages interest).

Definition level1_errors (a : args) (packages : list package_info)
  : gset string :=
  let interest := level1_interest a (build_package_map packages) in
  if all_edges a
  then error_nodes (level1_result (list string) packages interest)
  else error_nodes (level1_result (gset string) packages interest).

(** The statements [do_level1_graph] prints for given node and edge
    collections. *)
Definition level1_statements (iknow : bool) (errors outside : gset string)
    (pairs : list (string * string)) : list stmt :=
  [Line "digraph {"; Line "node [style=filled]"]
  ++ (if iknow then [] else [WarningLabel])
  ++ (if bool_decide (errors = ∅) then []
      else [Line "{ node [fillcolor=red]"]
           ++ (ErrorNode <$> elements errors) ++ [Line "}"])
  ++ (if bool_decide (outside = ∅) then []
      else [Line "{ node [fillcolor=aliceblue]"]
           ++ (Node <$> elements outside) ++ [Line "}"])
  ++ ((λ edge, Edge edge.1 edge.2) <$> pairs) ++ [Line "}"].

(** How many times the all-edges mode lists [d] among the dependencies of
    [p]: once per required capability and entry of [d] in its provider
    list. *)
Definition deps_count (package_map : gmap string package_info)
    (providers : gmap string (list string)) (p d : string) : nat :=
  match package_map !! p with
  | Some info =>
      sum_list ((λ c, occ d (providers !!! c)) <$> elements (requires info))
  | None => 0
  end.

(** How many times the all-edges mode lists [q] among the dependents of
    [p]: once per provided capability and entry of [q] in its requirer
    list. *)
Definition dependents_count (package_map : gmap string package_info)
    (requirers : gmap string (list string)) (p q : string) : nat :=
  match package_map !! p with
  | Some info =>
      sum_list ((λ c, occ q (requirers !!! c)) <$> elements (provides info))
  | None => 0
  end.

(** The (source, destination, capability) triples the bounded traversal
    identifies. *)
Definition level1_triple (packages : list package_info)
    (interest : gset string) (s d c : string) : Prop :=
  (s ∈ interest
   ∧ ∃ info, build_package_map packages !! s = Some info
             ∧ c ∈ requires info ∧ d ∈ build_providers packages !!! c)
  ∨ ((s ∉ interest) ∧ d ∈ interest
     ∧ ∃ info, build_package_map packages !! d = Some info
               ∧ c ∈ provides info ∧ s ∈ build_requirers packages !!! c).

(** A statement names the package [n]. *)
Definition mentions (n : string) (s : stmt) : Prop :=
  match s with
  | Node m | RedNode m | ErrorNode m => m = n
  | LabelledEdge node dependency _ => node = n ∨ dependency = n
  | Edge node required => node = n ∨ required = n
  | Line _ | WarningLabel => False
  end.

(** Command lines of the scenarios. *)
Definition bounded_B : args :=
  {| i_know_what_im_doing := true; all_edges := false;
     all_requirements := false; package := ["B"] |}.

(** Two packages linked by two capabilities, drawn with every edge. *)
Definition pkg_P : package_info :=
  {| name := "P"; path := "P.hpkg"; requires := ∅;
     provides := {["x"; "y"]} |}.
Definition pkg_Q : package_info :=
  {| name := "Q"; path := "Q.hpkg"; requires := {["x"; "y"]};
     provides := ∅ |}.
Definition all_edges_Q : args :=
  {| i_know_what_im_doing := true; all_edges := true;
     all_requirements := false; package := ["Q"] |}.

(** Two packages of interest, one depending on the other. *)
Definition bounded_A_B : args :=
  {| i_know_what_im_doing := true; all_edges := false;
     all_requirements := false; package := ["A"; "B"] |}.

(** A command line naming a package that does not exist. *)
Definition closure_ghost : args :=
  {| i_know_what_im_doing := true; all_edges := false;
     all_requirements := true; package := ["ghost"] |}.

(** What holds in the bounded traversal after the packages of [seen] have
    been handled. *)
Definition level1_inv {C : Type} `{Collector C}
    (package_map : gmap string package_info)
    (providers requirers : gmap string (list string)) (interest : gset string)
    (seen : list string) (st : level1_state C) : Prop :=
  (∀ s d, d ∈ c_items (edges_get (edges st) s)
          ↔ (s ∈ seen ∧ dep_of package_map providers s d)
            ∨ ((s ∉ interest) ∧ d ∈ seen
               ∧ dependent_of package_map requirers d s))
  ∧ (∀ x, x ∈ outside_nodes st
          ↔ (x ∉ interest)
            ∧ ∃ p, p ∈ seen ∧ (dep_of package_map providers p x
                               ∨ dependent_of package_map requirers p x))
  ∧ (∀ x, x ∈ error_nodes st ↔ x ∈ seen ∧ package_map !! x = None).

(** What handling [p] adds to the number of edges from [s] to [d] in the
    all-edges mode. *)
Definition level1_contribution (package_map : gmap string package_info)
    (providers requirers : gmap string (list string)) (interest : gset string)
    (p s d : string) : nat :=
  (if decide (s = p) then deps_count package_map providers p d else 0)
  + (if decide (d = p ∧ s ∉ interest)
     then dependents_count package_map requirers p s else 0).

(** No package named: every known package is of interest. *)
Definition bounded_all : args :=
  {| i_know_what_im_doing := true; all_edges := false;
     all_requirements := false; package := [] |}.

(** ** Notions used for the parsing and discovery code *)

(** A character at which [extract_entity] stops. *)
Definition stop_char (c : ascii) : bool :=
  Py.isspace c || Py.char_in c forbidden.

(** No character of [s] is white space or forbidden. *)
Fixpoint clean_token (s : string) : bool :=
  match s with
  | EmptyString => true
  | String c rest => negb (stop_char c) && clean_token rest
  end.

(** [rest] is empty or begins with a character that stops
    [extract_entity]. *)
Definition stops (rest : string) : Prop :=
  match rest with
  | EmptyString => True
  | String c _ => stop_char c = true
  end.

(** The line prefixes [read_package] recognises. *)
Definition provides_prefix : string := String Py.tab "provides: ".
Definition requires_prefix : string := String Py.tab "requires: ".
Definition supplements_prefix : string := String Py.tab "supplements: ".
Definition name_prefix : string := String Py.tab "name: ".

(** The record [read_package] builds from the output of a successful
    [/bin/package list -i]. *)
Definition parse_package (package stdout : string) : package_info :=
  foldl read_line
    {| name := EmptyString; path := package; requires := ∅; provides := ∅ |}
    (Py.splitlines stdout).

(** The package files found, system directory first. *)
Definition discovered (w : platform) : list string :=
  package_dirs ≫= (λ package_dir, glob_hpkg w (Path (finddir w package_dir))).

(** The package query of [file] succeeds. *)
Definition package_ok (w : platform) (file : string) : Prop :=
  (run_package_list w file).1 = 0%Z.

(** The closure command line of the scenario, and the state in which its
    work loop ends. *)
Definition closure_C : args :=
  {| i_know_what_im_doing := true; all_edges := false;
     all_requirements := true; package := ["C"] |}.
Definition scenario_end : closure_state :=
  {| graph_packages := ∅;
     visited := {["A"; "B"; "C"]};
     printed := [LabelledEdge "C" "B" "y"; LabelledEdge "B" "A" "x"] |}.

(** A second package named P, which provides nothing. *)
Definition pkg_P_empty : package_info :=
  {| name := "P"; path := "P2.hpkg"; requires := ∅; provides := ∅ |}.

(** * Properties *)

(** ** Counting occurrences *)

Section occ.
Context {A : Type} `{EqDecision A}.
Implicit Types (x y : A) (l k : list A).

Lemma occ_nil x : occ x [] = 0.
Proof. done. Qed.

Lemma occ_cons x y l :
  occ x (y :: l) = (if decide (y = x) then 1 else 0) + occ x l.
Proof. unfold occ. rewrite filter_cons. by case_decide. Qed.

Lemma occ_app x l k : occ x (l ++ k) = occ x l + occ x k.
Proof. unfold occ. by rewrite filter_app, length_app. Qed.

Lemma occ_pos x l : 0 < occ x l ↔ x ∈ l.
Proof.
  induction l as [|y l IH]; [rewrite occ_nil; split; [lia | by inversion 1]|].
  rewrite occ_cons, elem_of_cons. case_decide; [subst|].
  - split; [by left | lia].
  - rewrite <- IH. split; [tauto | intros [?|?]; [congruence | done]].
Qed.

Lemma occ_zero x l : occ x l = 0 ↔ x ∉ l.
Proof. rewrite <- occ_pos. lia. Qed.

Lemma occ_NoDup x l : NoDup l → occ x l = if decide (x ∈ l) then 1 else 0.
Proof.
  induction 1 as [|y l Hy Hl IH]; [done|].
  rewrite occ_cons, IH. rewrite (decide_ext (x ∈ y :: l) (y = x ∨ x ∈ l))
    by (rewrite elem_of_cons; naive_solver).
  destruct (decide (y = x)) as [->|Hne].
  - rewrite decide_False by done. by rewrite decide_True by (by left).
  - destruct (decide (x ∈ l)).
    + by rewrite decide_True by (by right).
    + by rewrite decide_False by (intros [?|?]; done).
Qed.

Lemma NoDup_occ l : (∀ x, occ x l ≤ 1) → NoDup l.
Proof.
  induction l as [|y l IH]; intros Hl; [constructor|].
  constructor.
  - intros Hy%occ_pos. specialize (Hl y). rewrite occ_cons in Hl.
    case_decide; [lia | done].
  - apply IH. intros x. specialize (Hl x). rewrite occ_cons in Hl. lia.
Qed.

Lemma occ_Permutation x l k : l ≡ₚ k → occ x l = occ x k.
Proof. intros Hp. unfold occ. by rewrite Hp. Qed.
End occ.

Lemma NoDup_fmap_eq {A B : Type} (f : A → B) (l : list A) (x y : A) :
  NoDup (f <$> l) → x ∈ l → y ∈ l → f x = f y → x = y.
Proof.
  induction l as [|a l IH]; [by inversion 2|].
  rewrite fmap_cons, NoDup_cons, !elem_of_cons.
  intros [Ha Hl] [->|Hx] [->|Hy] Hf; [done| | |by apply IH].
  - exfalso. apply Ha. rewrite Hf. by apply list_elem_of_fmap_2.
  - exfalso. apply Ha. rewrite <- Hf. by apply list_elem_of_fmap_2.
Qed.

(** ** The capability index *)

Section index.
Variable field : package_info → gset string.

Lemma append_names_lookup n (l : list string) index c :
  NoDup l →
  foldl (append_name n) index l !!! c
  = (index !!! c) ++ (if decide (c ∈ l) then [n] else []).
Proof.
  intros Hl. revert index.
  induction Hl as [|e l He Hl IH]; intros index; simpl.
  - by rewrite app_nil_r.
  - rewrite IH. unfold append_name.
    destruct (decide (e = c)) as [->|Hne].
    + rewrite lookup_total_insert_eq.
      rewrite decide_False by done.
      rewrite decide_True by set_solver. by rewrite app_nil_r.
    + rewrite lookup_total_insert_ne by done.
      repeat case_decide; set_solver.
Qed.

Lemma index_package_lookup index p c :
  index_package field index p !!! c
  = (index !!! c) ++ (if decide (c ∈ field p) then [name p] else []).
Proof.
  unfold index_package.
  rewrite append_names_lookup by apply NoDup_elements.
  repeat case_decide; set_solver.
Qed.

Lemma build_index_from index packages c :
  foldl (index_package field) index packages !!! c
  = (index !!! c) ++ (name <$> filter (λ p, c ∈ field p) packages).
Proof.
  revert index. induction packages as [|p packages IH]; intros index; simpl.
  - by rewrite app_nil_r.
  - rewrite IH, index_package_lookup, filter_cons.
    case_decide; [by rewrite <- app_assoc | by rewrite app_nil_r].
Qed.

Lemma build_index_lookup packages c :
  build_index field packages !!! c
  = name <$> filter (λ p, c ∈ field p) packages.
Proof.
  unfold build_index. by rewrite build_index_from, lookup_total_empty.
Qed.

Lemma elem_of_build_index packages c n :
  n ∈ build_index field packages !!! c
  ↔ ∃ p, p ∈ packages ∧ name p = n ∧ c ∈ field p.
Proof.
  rewrite build_index_lookup, list_elem_of_fmap.
  setoid_rewrite list_elem_of_filter. naive_solver.
Qed.

Lemma build_index_unique packages c p :
  NoDup (name <$> packages) → p ∈ packages →
  name p ∈ build_index field packages !!! c ↔ c ∈ field p.
Proof.
  intros Hnd Hp. rewrite elem_of_build_index. split; [|naive_solver].
  intros (q & Hq & Hname & Hc).
  assert (q = p) as -> by (by eapply (NoDup_fmap_eq name)).
  done.
Qed.
End index.

(** ** The package map *)

Section package_map.
Implicit Types (m : gmap string package_info) (l : list package_info).

Let add m (p : package_info) := <[name p := p]> m.

Lemma package_map_from_Some m l n p :
  foldl add m l !! n = Some p →
  (p ∈ l ∧ name p = n) ∨ m !! n = Some p.
Proof.
  revert m. induction l as [|q l IH]; intros m; simpl; [by right|].
  intros [[Hp Hn]|Hm]%IH.
  - left. split; [by right | done].
  - unfold add in Hm. destruct (decide (name q = n)) as [<-|Hne].
    + rewrite lookup_insert_eq in Hm. injection Hm as ->.
      left. split; [by left | done].
    + rewrite lookup_insert_ne in Hm by done. by right.
Qed.

Lemma package_map_from_is_Some m l n :
  is_Some (foldl add m l !! n) ↔ n ∈ name <$> l ∨ is_Some (m !! n).
Proof.
  revert m. induction l as [|q l IH]; intros m; simpl.
  - split; [by right | intros [H|H]; [by inversion H | done]].
  - rewrite IH. unfold add. rewrite elem_of_cons.
    destruct (decide (name q = n)) as [<-|Hne].
    + rewrite lookup_insert_eq. split; [intros _; by left; left | eauto].
    + rewrite lookup_insert_ne by done.
      split; [intros [?|?]; auto | intros [[?|?]|?]; auto; congruence].
Qed.

Lemma package_map_from_unique m l p :
  NoDup (name <$> l) → p ∈ l → foldl add m l !! name p = Some p.
Proof.
  revert m. induction l as [|q l IH]; intros m; [by inversion 2|].
  rewrite fmap_cons, NoDup_cons, elem_of_cons. intros [Hq Hl] [->|Hp]; simpl.
  - destruct (foldl add (add m q) l !! name q) as [p'|] eqn:Hlook.
    + apply package_map_from_Some in Hlook as [[Hp' Hn]|Hm].
      * exfalso. apply Hq. rewrite <- Hn. by apply list_elem_of_fmap_2.
      * unfold add in Hm. by rewrite lookup_insert_eq in Hm.
    + assert (is_Some (foldl add (add m q) l !! name q)) as [? ?]; [|congruence].
      apply package_map_from_is_Some. right. unfold add.
      by rewrite lookup_insert_eq.
  - by apply IH.
Qed.

Lemma package_map_Some l n p :
  build_package_map l !! n = Some p → p ∈ l ∧ name p = n.
Proof.
  intros [?|Hm]%package_map_from_Some; [done|].
  by rewrite lookup_empty in Hm.
Qed.

Lemma package_map_is_Some l n :
  is_Some (build_package_map l !! n) ↔ n ∈ name <$> l.
Proof.
  etrans; [apply (package_map_from_is_Some ∅ l n)|].
  rewrite lookup_empty. split; [intros [?|[? ?]]; done | by left].
Qed.

Lemma package_map_unique l p :
  NoDup (name <$> l) → p ∈ l → build_package_map l !! name p = Some p.
Proof. apply package_map_from_unique. Qed.
End package_map.

(** Every name in an index is a key of the package map built from the same
    package list. *)
Lemma index_names_known field packages c n :
  n ∈ build_index field packages !!! c →
  is_Some (build_package_map packages !! n).
Proof.
  intros (p & Hp & <- & _)%elem_of_build_index.
  apply package_map_is_Some. by apply list_elem_of_fmap_2.
Qed.

(** ** Leaf detection *)

Lemma requirements_of_from acc packages :
  foldl (λ requirements p, requirements ∪ requires p) acc packages
  = acc ∪ all_required packages.
Proof.
  revert acc. induction packages as [|p packages IH]; intros acc; simpl.
  - unfold all_required. simpl. set_solver.
  - rewrite IH. unfold all_required. rewrite fmap_cons. simpl. set_solver.
Qed.

Lemma requirements_of_all_required packages :
  requirements_of packages = all_required packages.
Proof. unfold requirements_of. rewrite requirements_of_from. set_solver. Qed.

Lemma elem_of_all_required packages c :
  c ∈ all_required packages ↔ ∃ q, q ∈ packages ∧ c ∈ requires q.
Proof.
  unfold all_required. rewrite elem_of_union_list. split.
  - intros (X & (q & -> & Hq)%list_elem_of_fmap & Hc). eauto.
  - intros (q & Hq & Hc). exists (requires q).
    split; [by apply list_elem_of_fmap_2 | done].
Qed.

Lemma provides_required_false requirements p :
  provides_required requirements p = false ↔ provides p ## requirements.
Proof.
  unfold provides_required. rewrite <- not_true_iff_false, existsb_exists.
  split.
  - intros Hno c Hc Hr. apply Hno. exists c.
    rewrite <- list_elem_of_In, elem_of_elements, bool_decide_eq_true. done.
  - intros Hdisj (c & Hc & Hr). apply bool_decide_eq_true in Hr.
    apply list_elem_of_In, elem_of_elements in Hc. by apply (Hdisj c).
Qed.

Lemma leaves_filter packages :
  leaves packages
  = filter (λ p, provides p ## all_required packages) packages.
Proof.
  unfold leaves. rewrite requirements_of_all_required.
  generalize (all_required packages) as requirements. intros requirements.
  induction packages as [|p packages IH]; [done|].
  simpl. rewrite filter_cons, IH.
  destruct (provides_required requirements p) eqn:Hb; simpl.
  - rewrite decide_False; [done|].
    rewrite <- provides_required_false. congruence.
  - rewrite decide_True; [done|]. by apply provides_required_false.
Qed.

(** C2 (leaf detection).  The leaves are the input list filtered, in input
    order, by "no provided capability is in the union of all requires
    sets"; so they form a sub-list of the input, a package is a leaf exactly
    when it is in the input and no package of the input requires one of
    its capabilities, a package that provides nothing is a leaf, and the
    report prints the leaves in that order. *)
Theorem leaves_correct (packages : list package_info) :
  leaves packages = filter (λ p, provides p ## all_required packages) packages
  ∧ sublist (leaves packages) packages
  ∧ (∀ p, p ∈ leaves packages ↔
          p ∈ packages ∧
          ∀ c q, c ∈ provides p → q ∈ packages → c ∉ requires q)
  ∧ (∀ p, p ∈ packages → provides p = ∅ → p ∈ leaves packages)
  ∧ (∀ a w, get_packages w = Ok packages →
            do_leaves a w
            = Ok ((if i_know_what_im_doing a then [] else [WARNING])
                  ++ (leaf_line <$> leaves packages))).
Proof.
  split; [apply leaves_filter|]. rewrite leaves_filter.
  split; [apply sublist_filter|]. split; [|split].
  - intros p. rewrite list_elem_of_filter. split.
    + intros [Hdisj Hp]. split; [done|]. intros c q Hc Hq Hr.
      apply (Hdisj c Hc). apply elem_of_all_required. eauto.
    + intros [Hp Hno]. split; [|done].
      intros c Hc (q & Hq & Hr)%elem_of_all_required. by apply (Hno c q).
  - intros p Hp Hempty. apply list_elem_of_filter. split; [|done].
    rewrite Hempty. set_solver.
  - intros a w Hw. unfold do_leaves. rewrite Hw. simpl.
    by rewrite leaves_filter.
Qed.

(** C provides nothing and is a leaf of the scenario. *)
Lemma leaves_correct_witness :
  pkg_C ∈ scenario ∧ provides pkg_C = ∅ ∧ pkg_C ∈ leaves scenario.
Proof.
  assert (pkg_C ∈ scenario) as Hin by (right; right; left).
  split; [exact Hin|]. split; [reflexivity|].
  exact (proj1 (proj2 (proj2 (proj2 (leaves_correct scenario))))
           pkg_C Hin eq_refl).
Defined.

(** C5 (capability index), amended.  [providers[c]] is the list of the names of the
    packages whose provides set contains [c], in the order of the package
    list, one entry per such package, and [requirers[c]] the same for the
    requires sets; hence a name is in [providers[c]] exactly when a package
    of that name provides [c], and likewise for [requirers]; when no two
    packages share a name, the name of a package is in [providers[c]]
    exactly when that very package provides [c]. *)
Theorem index_correct (packages : list package_info) (c : string) :
  build_providers packages !!! c
    = name <$> filter (λ p, c ∈ provides p) packages
  ∧ build_requirers packages !!! c
    = name <$> filter (λ p, c ∈ requires p) packages
  ∧ (∀ n, n ∈ build_providers packages !!! c
          ↔ ∃ p, p ∈ packages ∧ name p = n ∧ c ∈ provides p)
  ∧ (∀ n, n ∈ build_requirers packages !!! c
          ↔ ∃ p, p ∈ packages ∧ name p = n ∧ c ∈ requires p)
  ∧ (NoDup (name <$> packages) →
     ∀ p, p ∈ packages →
          (name p ∈ build_providers packages !!! c ↔ c ∈ provides p)
          ∧ (name p ∈ build_requirers packages !!! c ↔ c ∈ requires p)).
Proof.
  split; [apply build_index_lookup|]. split; [apply build_index_lookup|].
  split; [apply elem_of_build_index|]. split; [apply elem_of_build_index|].
  intros Hnames p Hp. split; by apply build_index_unique.
Qed.

(** The three scenario packages have different names, and B provides y. *)
Lemma index_correct_witness :
  NoDup (name <$> scenario)
  ∧ pkg_B ∈ scenario
  ∧ ("B" ∈ build_providers scenario !!! "y" ↔ "y" ∈ provides pkg_B).
Proof.
  assert (NoDup (name <$> scenario)) as Hnames
    by (apply (bool_decide_unpack _); vm_compute; exact I).
  assert (pkg_B ∈ scenario) as Hin by (right; left).
  split; [exact Hnames|]. split; [exact Hin|].
  exact (proj1 (proj2 (proj2 (proj2 (proj2 (index_correct scenario "y"))))
                 Hnames pkg_B Hin)).
Defined.

(** Two packages named P, of which only the first provides x: the name of
    the second is listed under x although the second does not provide x. *)
Lemma index_duplicate_names :
  ¬ (∀ packages c p,
       p ∈ packages →
       name p ∈ build_providers packages !!! c ↔ c ∈ provides p).
Proof.
  intros Hclaim.
  assert (pkg_P_empty ∈ [pkg_P; pkg_P_empty]) as Hin by (right; left).
  destruct (Hclaim [pkg_P; pkg_P_empty] "x" pkg_P_empty Hin) as [Hlisted _].
  assert ("x" ∈ provides pkg_P_empty) as Hx.
  { apply Hlisted. apply (bool_decide_unpack _). vm_compute. exact I. }
  by apply not_elem_of_empty in Hx.
Qed.

(** ** Loops that may raise *)

Lemma rmap_Ok {A B : Type} (f : A → result B) (g : A → B) (l : list A) :
  (∀ a, a ∈ l → f a = Ok (g a)) → rmap f l = Ok (g <$> l).
Proof.
  induction l as [|a l IH]; intros Hf; [done|]. simpl.
  rewrite (Hf a) by (by left). simpl.
  rewrite IH by (intros b Hb; apply Hf; by right). done.
Qed.

Lemma getitem_Ok {V : Type} (d : gmap string V) (k : string) :
  is_Some (d !! k) → ∃ v, getitem d k = Ok v ∧ d !! k = Some v.
Proof. intros [v Hv]. exists v. unfold getitem. by rewrite Hv. Qed.

(** ** Closure traversal *)

Section closure_facts.
Variable package_map : gmap string package_info.
Variable providers : gmap string (list string).
Hypothesis providers_known :
  ∀ c n, n ∈ providers !!! c → is_Some (package_map !! n).

Abbreviation step := (closure_step package_map providers).

Lemma entity_edges_Ok node entity :
  entity_edges package_map providers node entity
  = Ok ((λ d, LabelledEdge node d entity) <$> providers !!! entity).
Proof.
  unfold entity_edges. apply rmap_Ok. intros d Hd.
  destruct (getitem_Ok package_map d) as (v & -> & _); [|done].
  by eapply providers_known.
Qed.

Lemma expand_Ok p entities :
  expand package_map providers p entities
  = Ok (edges_of providers p entities,
        list_to_set (entities ≫= (λ entity, providers !!! entity))).
Proof.
  unfold expand.
  rewrite (rmap_Ok _ (λ entity,
    (λ d, LabelledEdge p d entity) <$> providers !!! entity))
    by (intros; apply entity_edges_Ok).
  simpl. do 2 f_equal. unfold edges_of.
  induction entities as [|e es IH]; [done|].
  rewrite fmap_cons, bind_cons. simpl. by f_equal.
Qed.

Lemma occ_entity_edges p e p' d c :
  occ (LabelledEdge p' d c)
      ((λ d', LabelledEdge p d' e) <$> providers !!! e)
  = if decide (p' = p ∧ c = e) then occ d (providers !!! e) else 0.
Proof.
  induction (providers !!! e) as [|x l IH].
  - by case_decide.
  - rewrite fmap_cons, !occ_cons, IH.
    destruct (decide (p' = p ∧ c = e)) as [[-> ->]|Hne].
    + f_equal. destruct (decide (x = d)) as [->|Hx].
      * by rewrite decide_True.
      * rewrite decide_False; [done | congruence].
    + rewrite decide_False; [done|]. intros [=]. naive_solver.
Qed.

Lemma occ_edges_of p entities p' d c :
  NoDup entities →
  occ (LabelledEdge p' d c) (edges_of providers p entities)
  = if decide (p' = p ∧ c ∈ entities) then occ d (providers !!! c) else 0.
Proof.
  unfold edges_of. induction 1 as [|e es He Hes IH].
  - simpl. rewrite occ_nil, decide_False; [done|]. intros [_ Hc]. inversion Hc.
  - rewrite bind_cons, occ_app, IH, occ_entity_edges.
    destruct (decide (p' = p)) as [->|Hp].
    + destruct (decide (c = e)) as [->|Hc].
      * rewrite (decide_True (P := p = p ∧ e = e)) by done.
        rewrite (decide_False (P := p = p ∧ e ∈ es)) by tauto.
        rewrite (decide_True (P := p = p ∧ e ∈ e :: es)); [lia|].
        split; [done | by left].
      * rewrite (decide_False (P := p = p ∧ c = e)) by tauto.
        destruct (decide (c ∈ es)) as [Hin|Hin].
        -- rewrite decide_True by done.
           rewrite decide_True; [done|]. split; [done | by right].
        -- rewrite decide_False by tauto.
           rewrite decide_False; [done|].
           rewrite elem_of_cons. tauto.
    + rewrite !decide_False; tauto.
Qed.

Lemma edges_of_only_edges p entities s :
  s ∈ edges_of providers p entities → ∃ d c, s = LabelledEdge p d c.
Proof.
  unfold edges_of. rewrite list_elem_of_bind.
  intros (c & (d & -> & _)%list_elem_of_fmap & _). eauto.
Qed.
End closure_facts.

Section closure_invariant.
Variable package_map : gmap string package_info.
Variable providers : gmap string (list string).
Variable seeds : gset string.
Hypothesis providers_known :
  ∀ c n, n ∈ providers !!! c → is_Some (package_map !! n).

Abbreviation step := (closure_step package_map providers).
Abbreviation inv := (closure_inv package_map providers seeds).
Abbreviation measure := (closure_measure package_map seeds).

Lemma new_names_known entities :
  list_to_set (entities ≫= (λ entity, providers !!! entity))
  ⊆ universe package_map seeds.
Proof.
  unfold universe. intros d Hd. apply elem_of_list_to_set in Hd.
  apply list_elem_of_bind in Hd as (c & Hd & _).
  apply elem_of_union_l, elem_of_dom. by eapply providers_known.
Qed.

Lemma closure_step_inv st st' : inv st → step st st' → inv st'.
Proof.
  intros [Hw Hv Hu Hs Hc He Ho Hr] Hstep.
  destruct Hstep as [st p Hp Hpv | st p info entities es new Hp Hpv Hinfo Hperm Hex].
  - split; simpl; try done.
    + set_solver.
    + intros x Hx. specialize (Hs x Hx).
      destruct (decide (x = p)) as [->|]; set_solver.
    + intros q i c d Hq Hi Hc' Hd. specialize (Hc q i c d Hq Hi Hc' Hd).
      destruct (decide (d = p)) as [->|]; set_solver.
    + intros n Hn. apply Hr. set_solver.
  - rewrite expand_Ok in Hex by done. injection Hex as <- <-.
    assert (NoDup entities) as Hnd by (rewrite Hperm; apply NoDup_elements).
    split; simpl.
    + pose proof (new_names_known entities). set_solver.
    + set_solver.
    + intros n Hn Hnone. apply elem_of_union_l. by apply Hu.
    + intros x Hx. specialize (Hs x Hx).
      destruct (decide (x = p)) as [->|]; set_solver.
    + intros q i c d [Hq|Hq%elem_of_singleton]%elem_of_union Hi Hc' Hd.
      * specialize (Hc q i c d Hq Hi Hc' Hd).
        destruct (decide (d = p)) as [->|]; set_solver.
      * subst q. assert (i = info) as -> by congruence.
        apply elem_of_union_l, elem_of_union_r, elem_of_list_to_set.
        apply list_elem_of_bind. exists c. split; [done|].
        rewrite Hperm. by apply elem_of_elements.
    + intros q d c. rewrite occ_app, He, occ_edges_of by done.
      destruct (decide (q = p)) as [->|Hq].
      * rewrite Hinfo. rewrite (decide_False (P := p ∈ visited st ∧ _)) by tauto.
        simpl. apply decide_ext. rewrite Hperm, elem_of_elements. set_solver.
      * rewrite (decide_False (P := q = p ∧ _)) by tauto.
        destruct (package_map !! q); [|done].
        rewrite Nat.add_0_r. apply decide_ext. set_solver.
    + intros s [Hs'|Hs']%elem_of_app; [by apply Ho|].
      apply edges_of_only_edges in Hs' as (d & c & ->). eauto.
    + intros n [[Hn|Hn]%elem_of_union|[Hn|Hn%elem_of_singleton]%elem_of_union]%elem_of_union.
      * apply Hr. set_solver.
      * apply elem_of_list_to_set, list_elem_of_bind in Hn as (c & Hd & Hc').
        eapply reach_dep; [apply (Hr p); set_solver | done | | done].
        apply elem_of_elements. by rewrite <- Hperm.
      * apply Hr. set_solver.
      * subst n. apply Hr. set_solver.
Qed.

Lemma closure_step_measure st st' : inv st → step st st' → measure st' < measure st.
Proof.
  intros [Hw Hv Hu Hs Hc He Ho Hr] Hstep. unfold closure_measure.
  destruct Hstep as [st p Hp Hpv | st p info entities es new Hp Hpv Hinfo Hperm Hex];
    simpl.
  - assert (size (graph_packages st ∖ {[p]}) < size (graph_packages st)); [|lia].
    apply subset_size. set_solver.
  - rewrite expand_Ok in Hex by done. injection Hex as <- <-.
    pose proof (new_names_known entities) as Hnew.
    set (U := universe package_map seeds) in *.
    assert (size (graph_packages st ∖ {[p]}
                  ∪ list_to_set (entities ≫= (λ entity, providers !!! entity)))
            ≤ size U) as H1 by (apply subseteq_size; set_solver).
    assert (size (U ∖ (visited st ∪ {[p]})) < size (U ∖ visited st)) as H2
      by (apply subset_size; set_solver).
    nia.
Qed.

Lemma closure_rtc_inv st st' : inv st → rtc step st st' → inv st'.
Proof. intros Hinv Hrtc. induction Hrtc; eauto using closure_step_inv. Qed.

(** With enough fuel the loop run by the function ends, in a state that
    the step relation reaches and whose work set is empty. *)
Lemma closure_loop_ends fuel st :
  inv st → measure st < fuel →
  ∃ st', closure_loop package_map providers fuel st = Some (Ok st')
         ∧ rtc step st st' ∧ graph_packages st' = ∅.
Proof.
  revert st. induction fuel as [|fuel IH]; intros st Hinv Hfuel; [lia|].
  simpl. destruct (elements (graph_packages st)) as [|p rest] eqn:Hel.
  - exists st. split; [done|]. split; [done|]. by apply elements_empty_inv in Hel as ->%leibniz_equiv.
  - assert (p ∈ graph_packages st) as Hp
      by (apply elem_of_elements; rewrite Hel; by left).
    case_bool_decide as Hpv.
    + set (st1 := {| graph_packages := graph_packages st ∖ {[p]};
                     visited := visited st; printed := printed st |}).
      assert (step st st1) as Hstep by (by constructor).
      destruct (IH st1) as (st' & Hrun & Hrtc & Hempty).
      * by eapply closure_step_inv.
      * pose proof (closure_step_measure _ _ Hinv Hstep). lia.
      * exists st'. split; [done|]. split; [by eapply rtc_l | done].
    + assert (is_Some (package_map !! p)) as [info Hinfo].
      { destruct (package_map !! p) eqn:Hlook; [eauto|].
        exfalso. apply Hpv. apply (inv_unknown _ _ _ _ Hinv); [|done].
        pose proof (inv_work _ _ _ _ Hinv p Hp) as HU. unfold universe in HU.
        apply elem_of_union in HU as [Hdom%elem_of_dom|?]; [|done].
        rewrite Hlook in Hdom. by destruct Hdom. }
      unfold getitem. rewrite Hinfo, expand_Ok by done.
      set (st1 := {| graph_packages := _; visited := _; printed := _ |}).
      assert (step st st1) as Hstep.
      { eapply step_expand; eauto. by rewrite expand_Ok. }
      destruct (IH st1) as (st' & Hrun & Hrtc & Hempty).
      * by eapply closure_step_inv.
      * pose proof (closure_step_measure _ _ Hinv Hstep). lia.
      * exists st'. split; [done|]. split; [by eapply rtc_l | done].
Qed.
End closure_invariant.

Section closure_start.
Variable package_map : gmap string package_info.
Variable providers : gmap string (list string).
Variable seeds : gset string.

Lemma seed_nodes_from (l : list string) (acc : list stmt * gset string) :
  foldl (seed_node package_map) acc l
  = (acc.1 ++ (seed_stmt package_map <$> l),
     acc.2 ∪ list_to_set (filter (λ n, package_map !! n = None) l)).
Proof.
  revert acc. induction l as [|n l IH]; intros [nodes unknown]; simpl.
  - rewrite app_nil_r. f_equal. set_solver.
  - rewrite IH. unfold seed_node, seed_stmt.
    destruct (package_map !! n) eqn:Hn; simpl.
    + rewrite filter_cons_False by congruence. by rewrite <- app_assoc.
    + rewrite filter_cons_True by done. rewrite <- app_assoc. f_equal.
      set_solver.
Qed.

Lemma closure_init_nodes :
  (closure_init package_map seeds).1 = seed_stmt package_map <$> elements seeds.
Proof. unfold closure_init. by rewrite seed_nodes_from. Qed.

Lemma closure_init_state :
  (closure_init package_map seeds).2
  = {| graph_packages := seeds;
       visited := list_to_set
         (filter (λ n, package_map !! n = None) (elements seeds));
       printed := [] |}.
Proof.
  unfold closure_init. rewrite seed_nodes_from. simpl. f_equal. set_solver.
Qed.

Lemma closure_init_visited n :
  n ∈ visited (closure_init package_map seeds).2
  ↔ n ∈ seeds ∧ package_map !! n = None.
Proof.
  rewrite closure_init_state. simpl.
  rewrite elem_of_list_to_set, list_elem_of_filter, elem_of_elements. tauto.
Qed.

Lemma closure_init_inv :
  closure_inv package_map providers seeds (closure_init package_map seeds).2.
Proof.
  split.
  - rewrite closure_init_state. unfold universe. simpl. set_solver.
  - intros n [Hn _]%closure_init_visited. unfold universe. set_solver.
  - intros n Hn Hnone. by apply closure_init_visited.
  - rewrite closure_init_state. simpl. set_solver.
  - intros p info c d [_ Hnone]%closure_init_visited Hinfo. congruence.
  - intros p d c. rewrite closure_init_state at 1. simpl. rewrite occ_nil.
    destruct (package_map !! p) eqn:Hp; [|done].
    rewrite decide_False; [done|].
    intros [[_ Hnone]%closure_init_visited _]. congruence.
  - rewrite closure_init_state. simpl. intros s Hs. inversion Hs.
  - intros n [Hn|[Hn _]%closure_init_visited]%elem_of_union.
    + rewrite closure_init_state in Hn. by apply reach_seed.
    + by apply reach_seed.
Qed.
End closure_start.

Lemma closure_reachable_inv packages seeds st :
  closure_reachable packages seeds st →
  closure_inv (build_package_map packages) (build_providers packages) seeds st.
Proof.
  intros Hreach. eapply closure_rtc_inv; [| apply closure_init_inv | done].
  intros c n. apply index_names_known.
Qed.

(** ** What the traversal ends with *)

Lemma occ_count_occ {A : Type} `{EqDecision A} (x : A) (l : list A) :
  occ x l = count_occ (decide_rel (=)) l x.
Proof.
  induction l as [|y l IH]; [done|]. rewrite occ_cons, IH. simpl.
  unfold decide, decide_rel. by destruct (EqDecision0 y x).
Qed.

Lemma occ_ext_Permutation {A : Type} `{EqDecision A} (l k : list A) :
  (∀ x, occ x l = occ x k) → l ≡ₚ k.
Proof.
  intros Hocc. apply (Permutation_count_occ (decide_rel (=))).
  intros x. by rewrite <- !occ_count_occ.
Qed.

Section closure_end.
Variable package_map : gmap string package_info.
Variable providers : gmap string (list string).
Variable seeds : gset string.

Abbreviation inv := (closure_inv package_map providers seeds).

Lemma closure_end_visited st n :
  inv st → graph_packages st = ∅ →
  n ∈ visited st ↔ closure_reach package_map providers seeds n.
Proof.
  intros Hinv Hempty. split.
  - intros Hn. apply (inv_reach _ _ _ _ Hinv). set_solver.
  - induction 1 as [n Hn | p info c d _ IH Hinfo Hc Hd].
    + pose proof (inv_seeds _ _ _ _ Hinv n Hn). set_solver.
    + pose proof (inv_closed _ _ _ _ Hinv p info c d IH Hinfo Hc Hd).
      set_solver.
Qed.

(** Whatever is popped, the loop ends with the same visited set and the
    same edges up to their order. *)
Lemma closure_end_unique st1 st2 :
  inv st1 → inv st2 → graph_packages st1 = ∅ → graph_packages st2 = ∅ →
  visited st1 = visited st2 ∧ printed st1 ≡ₚ printed st2.
Proof.
  intros H1 H2 E1 E2.
  assert (visited st1 = visited st2) as Hv.
  { apply set_eq. intros n. by rewrite !closure_end_visited. }
  split; [done|]. apply occ_ext_Permutation. intros s.
  destruct (decide (s ∈ printed st1)) as [Hs|Hs].
  - apply (inv_only_edges _ _ _ _ H1) in Hs as (p & d & c & ->).
    rewrite (inv_edges _ _ _ _ H1), (inv_edges _ _ _ _ H2). by rewrite Hv.
  - destruct (decide (s ∈ printed st2)) as [Hs2|Hs2].
    + apply (inv_only_edges _ _ _ _ H2) in Hs2 as (p & d & c & ->).
      rewrite (inv_edges _ _ _ _ H1), (inv_edges _ _ _ _ H2). by rewrite Hv.
    + apply occ_zero in Hs, Hs2. congruence.
Qed.
End closure_end.

(** ** The closure traversal as a whole *)

Lemma closure_run_ends packages seeds :
  let package_map := build_package_map packages in
  let providers := build_providers packages in
  let start := (closure_init package_map seeds).2 in
  ∃ final,
    closure_loop package_map providers
      (S (closure_measure package_map seeds start)) start = Some (Ok final)
    ∧ closure_reachable packages seeds final
    ∧ graph_packages final = ∅.
Proof.
  intros package_map providers start.
  destruct (closure_loop_ends package_map providers seeds
              (index_names_known provides packages)
              (S (closure_measure package_map seeds start)) start)
    as (final & Hrun & Hrtc & Hempty).
  - apply closure_init_inv.
  - lia.
  - by exists final.
Qed.

Lemma requirements_graph_Ok a packages :
  ∃ final,
    closure_reachable packages (list_to_set (package a)) final
    ∧ graph_packages final = ∅
    ∧ requirements_graph a packages
      = Some (Ok ([Line "digraph {"]
                  ++ (if i_know_what_im_doing a then [] else [WarningLabel])
                  ++ [Line "node [style=filled fillcolor=aliceblue]";
                      Line "{ node [fillcolor=lightgrey]"]
                  ++ (seed_stmt (build_package_map packages)
                      <$> elements (list_to_set (package a) : gset string))
                  ++ [Line "}"] ++ printed final ++ [Line "}"])).
Proof.
  destruct (closure_run_ends packages (list_to_set (package a)))
    as (final & Hrun & Hreach & Hempty).
  exists final. split; [done|]. split; [done|].
  unfold requirements_graph. rewrite <- closure_init_nodes.
  destruct (closure_init _ _) as [nodes st]. simpl in *. by rewrite Hrun.
Qed.

Lemma closure_step_visited_mono package_map providers st st' :
  closure_step package_map providers st st' → visited st ⊆ visited st'.
Proof. destruct 1; simpl; set_solver. Qed.

Lemma closure_scenario_run :
  let package_map := build_package_map scenario in
  let start := (closure_init package_map {["C"]}).2 in
  closure_loop package_map (build_providers scenario)
    (S (closure_measure package_map {["C"]} start)) start
  = Some (Ok {| graph_packages := ∅;
                visited := {["A"; "B"; "C"]};
                printed := [LabelledEdge "C" "B" "y";
                            LabelledEdge "B" "A" "x"] |}).
Proof. vm_compute. reflexivity. Qed.

Lemma requirements_graph_run a packages :
  let package_map := build_package_map packages in
  let providers := build_providers packages in
  let seeds : gset string := list_to_set (package a) in
  let start := (closure_init package_map seeds).2 in
  ∃ final,
    closure_loop package_map providers
      (S (closure_measure package_map seeds start)) start = Some (Ok final)
    ∧ closure_reachable packages seeds final
    ∧ graph_packages final = ∅
    ∧ requirements_graph a packages
      = Some (Ok ([Line "digraph {"]
                  ++ (if i_know_what_im_doing a then [] else [WarningLabel])
                  ++ [Line "node [style=filled fillcolor=aliceblue]";
                      Line "{ node [fillcolor=lightgrey]"]
                  ++ (seed_stmt package_map <$> elements seeds)
                  ++ [Line "}"] ++ printed final ++ [Line "}"])).
Proof.
  intros package_map providers seeds start.
  destruct (closure_run_ends packages seeds)
    as (final & Hrun & Hreach & Hempty).
  exists final. split; [exact Hrun|]. split; [done|]. split; [done|].
  unfold requirements_graph. rewrite <- closure_init_nodes.
  fold package_map providers seeds. subst start.
  cbv zeta in Hrun. fold package_map providers in Hrun.
  destruct (closure_init package_map seeds) as [nodes st].
  cbn [fst snd] in *. by rewrite Hrun.
Qed.

(** What one iteration of the work loop does, for any popped element. *)
Lemma closure_step_cases packages (seeds : gset string) st st' :
  let package_map := build_package_map packages in
  let providers := build_providers packages in
  closure_step package_map providers st st' →
  (∃ p, p ∈ graph_packages st ∧ p ∈ visited st
        ∧ graph_packages st' = graph_packages st ∖ {[p]}
        ∧ visited st' = visited st ∧ printed st' = printed st)
  ∨ (∃ p info,
       p ∈ graph_packages st ∧ (p ∉ visited st)
       ∧ package_map !! p = Some info
       ∧ visited st' = visited st ∪ {[p]}
       ∧ (∀ x, x ∈ graph_packages st'
               ↔ (x ∈ graph_packages st ∧ x ≠ p)
                 ∨ ∃ c, c ∈ requires info ∧ x ∈ providers !!! c)
       ∧ (∀ q d c,
            occ (LabelledEdge q d c) (printed st')
            = occ (LabelledEdge q d c) (printed st)
              + (if decide (q = p ∧ c ∈ requires info)
                 then occ d (providers !!! c) else 0))).
Proof.
  intros package_map providers Hstep. clear seeds.
  destruct Hstep as [st p Hp Hpv | st p info entities es new Hp Hpv Hinfo Hperm Hex].
  - left. exists p. simpl. done.
  - right. exists p, info.
    rewrite expand_Ok in Hex by (intros c n; apply index_names_known).
    injection Hex as <- <-.
    assert (NoDup entities) as Hnd by (rewrite Hperm; apply NoDup_elements).
    assert (∀ c, c ∈ entities ↔ c ∈ requires info) as Hent
      by (intros c; by rewrite Hperm, elem_of_elements).
    simpl. split; [done|]. split; [done|]. split; [done|]. split; [done|].
    split.
    + intros x. rewrite elem_of_union, elem_of_difference, elem_of_singleton.
      rewrite elem_of_list_to_set, list_elem_of_bind.
      setoid_rewrite Hent. naive_solver.
    + intros q d c. rewrite occ_app, occ_edges_of by done.
      f_equal. apply decide_ext. by rewrite Hent.
Qed.

(** The work loop never gets stuck: whatever name of the work set is
    popped, the iteration can be carried out. *)
Lemma closure_progress packages seeds st p :
  closure_reachable packages seeds st → p ∈ graph_packages st →
  ∃ st', closure_step (build_package_map packages)
           (build_providers packages) st st'.
Proof.
  intros Hinv%closure_reachable_inv Hp.
  destruct (decide (p ∈ visited st)) as [Hpv|Hpv].
  - eexists. by apply (step_visited _ _ st p).
  - assert (is_Some (build_package_map packages !! p)) as [info Hinfo].
    { destruct (build_package_map packages !! p) eqn:Hlook; [eauto|].
      exfalso. apply Hpv. apply (inv_unknown _ _ _ _ Hinv); [|done].
      pose proof (inv_work _ _ _ _ Hinv p Hp) as HU. unfold universe in HU.
      apply elem_of_union in HU as [Hdom%elem_of_dom|?]; [|done].
      rewrite Hlook in Hdom. by destruct Hdom. }
    eexists. eapply (step_expand _ _ st p info (elements (requires info)));
      [done | done | done | done |].
    apply expand_Ok. intros c n. apply index_names_known.
Qed.

(** The state in which the executable loop ends on the scenario seeded
    with C is one the step relation reaches. *)
Lemma closure_scenario_end : closure_reachable scenario {["C"]} scenario_end.
Proof.
  destruct (closure_run_ends scenario {["C"]}) as (final & Hrun & Hreach & _).
  rewrite closure_scenario_run in Hrun. by injection Hrun as <-.
Qed.

(** C1 (closure traversal).  The program: for every package list and seed
    list the work loop of [do_requirements_graph] ends in a state with an
    empty work set whose printed statements are what the command prints
    after the seed nodes; in that state the visited names are exactly the
    names reachable from the seeds, the printed statements are edges only,
    and the edge from [p] to [d] labelled [c] is printed as many times as
    [d] is listed in [providers[c]] when [p] is a visited known package
    that requires [c], and never otherwise.  Any pop order: in every state
    the work loop can reach the same count holds, so no package is
    expanded twice; every provider of a
    requirement of a visited known package is in the work set or visited;
    an iteration either drops an already visited name from the work set, or
    takes an unvisited known package, marks it visited, prints one edge per
    requirement and provider entry and adds those providers to the work
    set; an iteration is always possible while the work set is not empty;
    and all runs end with the same visited set and the same edges up to
    order.  Seeded with C over the three scenario packages, the program and
    every run end with visited A, B, C and the two edges C to B labelled y
    and B to A labelled x. *)
Theorem closure_traversal_correct :
  (∀ a packages,
     let package_map := build_package_map packages in
     let providers := build_providers packages in
     let seeds : gset string := list_to_set (package a) in
     let start := (closure_init package_map seeds).2 in
     ∃ final,
       closure_loop package_map providers
         (S (closure_measure package_map seeds start)) start
       = Some (Ok final)
       ∧ requirements_graph a packages
         = Some (Ok ([Line "digraph {"]
                     ++ (if i_know_what_im_doing a then [] else [WarningLabel])
                     ++ [Line "node [style=filled fillcolor=aliceblue]";
                         Line "{ node [fillcolor=lightgrey]"]
                     ++ (seed_stmt package_map <$> elements seeds)
                     ++ [Line "}"] ++ printed final ++ [Line "}"]))
       ∧ graph_packages final = ∅
       ∧ (∀ n, n ∈ visited final
               ↔ closure_reach package_map providers seeds n)
       ∧ (∀ s, s ∈ printed final → ∃ p d c, s = LabelledEdge p d c)
       ∧ (∀ p d c,
            occ (LabelledEdge p d c) (printed final)
            = match package_map !! p with
              | Some info =>
                  if decide (p ∈ visited final ∧ c ∈ requires info)
                  then occ d (providers !!! c) else 0
              | None => 0
              end))
  ∧ (∀ packages seeds st,
       let package_map := build_package_map packages in
       let providers := build_providers packages in
       closure_reachable packages seeds st →
       (∀ s, s ∈ printed st → ∃ p d c, s = LabelledEdge p d c)
       ∧ (∀ p d c,
            occ (LabelledEdge p d c) (printed st)
            = match package_map !! p with
              | Some info =>
                  if decide (p ∈ visited st ∧ c ∈ requires info)
                  then occ d (providers !!! c) else 0
              | None => 0
              end)
       ∧ (∀ p info c d,
            p ∈ visited st → package_map !! p = Some info →
            c ∈ requires info → d ∈ providers !!! c →
            LabelledEdge p d c ∈ printed st
            ∧ d ∈ graph_packages st ∪ visited st)
       ∧ (∀ p, p ∈ graph_packages st →
               ∃ st', closure_step package_map providers st st')
       ∧ (∀ st',
            closure_step package_map providers st st' →
            (∃ p, p ∈ graph_packages st ∧ p ∈ visited st
                  ∧ graph_packages st' = graph_packages st ∖ {[p]}
                  ∧ visited st' = visited st ∧ printed st' = printed st)
            ∨ (∃ p info,
                 p ∈ graph_packages st ∧ (p ∉ visited st)
                 ∧ package_map !! p = Some info
                 ∧ visited st' = visited st ∪ {[p]}
                 ∧ (∀ x, x ∈ graph_packages st'
                         ↔ (x ∈ graph_packages st ∧ x ≠ p)
                           ∨ ∃ c, c ∈ requires info ∧ x ∈ providers !!! c)
                 ∧ (∀ q d c,
                      occ (LabelledEdge q d c) (printed st')
                      = occ (LabelledEdge q d c) (printed st)
                        + (if decide (q = p ∧ c ∈ requires info)
                           then occ d (providers !!! c) else 0))))
       ∧ (∀ st',
            closure_reachable packages seeds st' →
            graph_packages st = ∅ → graph_packages st' = ∅ →
            visited st' = visited st ∧ printed st' ≡ₚ printed st))
  ∧ (let package_map := build_package_map scenario in
     let start := (closure_init package_map {["C"]}).2 in
     closure_loop package_map (build_providers scenario)
       (S (closure_measure package_map {["C"]} start)) start
     = Some (Ok scenario_end))
  ∧ requirements_graph closure_C scenario
    = Some (Ok [Line "digraph {";
                Line "node [style=filled fillcolor=aliceblue]";
                Line "{ node [fillcolor=lightgrey]";
                Node "C"; Line "}";
                LabelledEdge "C" "B" "y"; LabelledEdge "B" "A" "x";
                Line "}"])
  ∧ (∀ final,
       closure_reachable scenario {["C"]} final →
       graph_packages final = ∅ →
       visited final = {["A"; "B"; "C"]}
       ∧ printed final ≡ₚ [LabelledEdge "C" "B" "y";
                           LabelledEdge "B" "A" "x"]).
Proof.
  split; [|split; [|split; [|split]]].
  - intros a packages package_map providers seeds start.
    destruct (requirements_graph_run a packages)
      as (final & Hrun & Hreach & Hempty & Hout).
    pose proof (closure_reachable_inv _ _ _ Hreach) as Hinv.
    fold package_map providers seeds in Hinv.
    assert (∀ n, n ∈ visited final
                 ↔ closure_reach package_map providers seeds n) as Hvisited
      by (intros n; by apply closure_end_visited).
    exists final. split; [exact Hrun|]. split; [exact Hout|].
    split; [done|]. split; [done|].
    split; [apply (inv_only_edges _ _ _ _ Hinv)|].
    apply (inv_edges _ _ _ _ Hinv).
  - intros packages seeds st package_map providers Hreach.
    pose proof (closure_reachable_inv _ _ _ Hreach) as Hinv.
    split; [apply (inv_only_edges _ _ _ _ Hinv)|].
    split; [apply (inv_edges _ _ _ _ Hinv)|].
    split; [|split; [|split]].
    + intros p info c d Hp Hinfo Hc Hd. split.
      * apply occ_pos. rewrite (inv_edges _ _ _ _ Hinv).
        fold package_map. rewrite Hinfo, decide_True by done.
        by apply occ_pos.
      * by eapply (inv_closed _ _ _ _ Hinv).
    + intros p Hp. by eapply closure_progress.
    + intros st' Hstep. by apply (closure_step_cases packages seeds).
    + intros st' Hreach' Hempty Hempty'.
      eapply closure_end_unique; eauto using closure_reachable_inv.
  - apply closure_scenario_run.
  - vm_compute. reflexivity.
  - intros final Hreach Hempty.
    by destruct (closure_end_unique _ _ _ final scenario_end
                   (closure_reachable_inv _ _ _ Hreach)
                   (closure_reachable_inv _ _ _ closure_scenario_end)
                   Hempty eq_refl).
Qed.

(** The end state of the scenario seeded with C: C and B have been
    expanded, and their edges are printed. *)
Lemma closure_traversal_correct_witness :
  closure_reachable scenario {["C"]} scenario_end
  ∧ "C" ∈ visited scenario_end
  ∧ build_package_map scenario !! "C" = Some pkg_C
  ∧ "y" ∈ requires pkg_C
  ∧ "B" ∈ build_providers scenario !!! "y"
  ∧ LabelledEdge "C" "B" "y" ∈ printed scenario_end
  ∧ "B" ∈ graph_packages scenario_end ∪ visited scenario_end.
Proof.
  assert ("C" ∈ visited scenario_end) as H1
    by (apply (bool_decide_unpack _); vm_compute; exact I).
  assert (build_package_map scenario !! "C" = Some pkg_C) as H2
    by (vm_compute; reflexivity).
  assert ("y" ∈ requires pkg_C) as H3
    by (apply (bool_decide_unpack _); vm_compute; exact I).
  assert ("B" ∈ build_providers scenario !!! "y") as H4
    by (apply (bool_decide_unpack _); vm_compute; exact I).
  split; [exact closure_scenario_end|]. split; [exact H1|].
  split; [exact H2|]. split; [exact H3|]. split; [exact H4|].
  exact (proj1 (proj2 (proj2 (proj1 (proj2 closure_traversal_correct)
                                 scenario {["C"]} scenario_end
                                 closure_scenario_end)))
           "C" pkg_C "y" "B" H1 H2 H3 H4).
Defined.

(** C9 (termination of the closure traversal).  For every package list and
    seed set the work loop run by the program ends, with an empty work set
    and without raising, within the bound given by [closure_measure], so
    the command returns its output; and for any choice of the popped
    elements there is no infinite run: every iteration decreases the
    measure, the visited set only grows, a package is expanded only when
    it is not yet visited and is visited afterwards, and the work and
    visited sets hold only names of packages or seeds. *)
Theorem closure_terminates :
  (∀ packages seeds,
     let package_map := build_package_map packages in
     let start := (closure_init package_map seeds).2 in
     ∃ final,
       closure_loop package_map (build_providers packages)
         (S (closure_measure package_map seeds start)) start
       = Some (Ok final)
       ∧ graph_packages final = ∅)
  ∧ (∀ a packages, ∃ out, requirements_graph a packages = Some (Ok out))
  ∧ (∀ packages seeds,
       well_founded (λ st' st,
             closure_reachable packages seeds st
             ∧ closure_step (build_package_map packages)
                 (build_providers packages) st st'))
  ∧ (∀ packages seeds st st',
       let package_map := build_package_map packages in
       closure_reachable packages seeds st →
       closure_step package_map (build_providers packages) st st' →
       (closure_measure package_map seeds st'
        < closure_measure package_map seeds st)
       ∧ visited st ⊆ visited st'
       ∧ graph_packages st' ∪ visited st' ⊆ dom package_map ∪ seeds
       ∧ (printed st' ≠ printed st →
          ∃ p, (p ∉ visited st) ∧ (p ∈ visited st'))).
Proof.
  split; [|split; [|split]].
  - intros packages seeds package_map start.
    destruct (closure_run_ends packages seeds) as (final & Hrun & _ & Hempty).
    by exists final.
  - intros a packages.
    destruct (requirements_graph_Ok a packages) as (final & _ & _ & ->).
    by eexists.
  - intros packages seeds.
    apply (well_founded_lt_compat _
             (closure_measure (build_package_map packages) seeds)).
    intros st' st [Hreach Hstep].
    eapply closure_step_measure;
      [intros c n; apply index_names_known
      | by apply closure_reachable_inv | done].
  - intros packages seeds st st' package_map Hreach Hstep.
    pose proof (closure_reachable_inv _ _ _ Hreach) as Hinv.
    split; [|split; [|split]].
    + eapply closure_step_measure; eauto.
      intros c n. apply index_names_known.
    + by eapply closure_step_visited_mono.
    + assert (closure_reachable packages seeds st') as Hreach'
        by (eapply rtc_r; eauto).
      pose proof (closure_reachable_inv _ _ _ Hreach') as Hinv'.
      pose proof (inv_work _ _ _ _ Hinv'). pose proof (inv_visited _ _ _ _ Hinv').
      unfold universe in *. set_solver.
    + destruct Hstep; simpl; [done|]. intros _. exists p. set_solver.
Qed.

(** The first iteration of the scenario seeded with C: C is popped and
    expanded. *)
Lemma closure_terminates_witness :
  let package_map := build_package_map scenario in
  let providers := build_providers scenario in
  let st := (closure_init package_map {["C"]}).2 in
  let entities := elements (requires pkg_C) in
  let st' :=
    {| graph_packages :=
         graph_packages st ∖ {["C"]}
         ∪ list_to_set (entities ≫= (λ entity, providers !!! entity));
       visited := visited st ∪ {["C"]};
       printed := printed st ++ edges_of providers "C" entities |} in
  closure_reachable scenario {["C"]} st
  ∧ closure_step package_map providers st st'
  ∧ closure_measure package_map {["C"]} st'
    < closure_measure package_map {["C"]} st.
Proof.
  intros package_map providers st entities st'.
  assert (closure_reachable scenario {["C"]} st) as Hreach by apply rtc_refl.
  assert (closure_step package_map providers st st') as Hstep.
  { apply (step_expand package_map providers st "C" pkg_C entities).
    - apply (bool_decide_unpack _). vm_compute. exact I.
    - apply (bool_decide_unpack _). vm_compute. exact I.
    - vm_compute. reflexivity.
    - reflexivity.
    - apply expand_Ok. intros c n. apply index_names_known. }
  split; [exact Hreach|]. split; [exact Hstep|].
  exact (proj1 (proj2 (proj2 (proj2 closure_terminates))
                  scenario {["C"]} st st' Hreach Hstep)).
Defined.

(** ** Escaping *)

Lemma replace_from_no_first old new s :
  (∀ c rest, old = String c rest → Py.char_in c s = false) →
  old ≠ EmptyString →
  Py.replace_from old new 0 s = s.
Proof.
  intros Hfirst Hold. induction s as [|a s IH]; [done|].
  destruct old as [|c rest]; [done|]. simpl.
  pose proof (Hfirst c rest eq_refl) as Hc. simpl in Hc.
  destruct (Ascii.eqb c a) eqn:Hca; [done|].
  destruct (ascii_dec c a) as [->|Hne].
  { by rewrite Ascii.eqb_refl in Hca. }
  f_equal. apply IH. intros c' rest' [= <- <-]. done.
Qed.

Lemma escape_DOT_string_no_backslash s :
  Py.char_in Py.backslash s = false → escape_DOT_string s = s.
Proof.
  intros Hs. unfold escape_DOT_string, Py.replace.
  apply replace_from_no_first; [|done]. by intros c rest [= <- <-].
Qed.

(** C7 (escaping), as the code behaves.  [escape_DOT_string] rewrites only
    the two-character sequence backslash, quote; a string without a
    backslash is returned as it is, so the quote in the name a, quote, b
    stays unescaped and ends the quoted DOT identifier early, and a lone
    backslash stays as it is, also in a label.  The line-break part holds:
    a newline in a label becomes backslash-l for left, backslash-r for
    right, and is kept for any other justification. *)
Theorem escape_misses_quotes :
  (∀ s, Py.char_in Py.backslash s = false → escape_DOT_string s = s)
  ∧ escape_DOT_string quote_name = quote_name
  ∧ DOT_id quote_name
    = String Py.dquote (String "a" (String Py.dquote
        (String "b" (String Py.dquote EmptyString))))
  ∧ escape_DOT_string (String Py.backslash EmptyString)
    = String Py.backslash EmptyString
  ∧ escape_DOT_label (String Py.backslash "n") "center"
    = String Py.backslash "n"
  ∧ escape_DOT_label ("a" +:+ String Py.newline "b") "left"
    = "a" +:+ String Py.backslash "lb"
  ∧ escape_DOT_label ("a" +:+ String Py.newline "b") "right"
    = "a" +:+ String Py.backslash "rb"
  ∧ (∀ s, escape_DOT_label s "center" = escape_DOT_string s).
Proof.
  split; [apply escape_DOT_string_no_backslash|].
  repeat split.
Qed.

(** ** Package discovery *)

Lemma finddir_failure w which :
  (run_finddir w which).1 ≠ 0%Z → finddir w which = EmptyString.
Proof.
  unfold finddir. destruct (run_finddir w which) as [returncode stdout].
  simpl. intros Hrc. by apply Z.eqb_neq in Hrc as ->.
Qed.

(** C8 (directory lookup failure), as the code behaves.  When [finddir]
    fails it returns the empty string without raising, and the empty path
    is the current directory: the packages contributed are those of the
    [*.hpkg] files found there, not none.  On [stray_platform] the failed
    user directory contributes the package of the current directory. *)
Theorem finddir_failure_reads_cwd :
  (∀ w which,
     (run_finddir w which).1 ≠ 0%Z →
     packages_of_dir w which = rmap (read_package w) (glob_hpkg w "."))
  ∧ finddir stray_platform "B_USER_PACKAGES_DIRECTORY" = EmptyString
  ∧ packages_of_dir stray_platform "B_USER_PACKAGES_DIRECTORY"
    = Ok [{| name := "stray"; path := "stray.hpkg";
             requires := ∅; provides := ∅ |}]
  ∧ get_packages stray_platform
    = Ok [{| name := "stray"; path := "stray.hpkg";
             requires := ∅; provides := ∅ |}].
Proof.
  split.
  - intros w which Hrc. unfold packages_of_dir.
    by rewrite finddir_failure.
  - repeat split.
Qed.

(** ** Bounded traversal *)

Global Instance set_collector_laws : CollectorLaws (gset string).
Proof.
  split; simpl.
  - apply elements_empty.
  - intros item c y. rewrite !elem_of_elements. set_solver.
  - intros iterable c y. rewrite !elem_of_elements. set_solver.
Qed.

Global Instance list_collector_laws : CollectorLaws (list string).
Proof.
  split; simpl.
  - done.
  - intros item c y. rewrite elem_of_app. set_solver.
  - intros iterable c y. by rewrite elem_of_app.
Qed.

Section level1_facts.
Context {C : Type} `{CollectorLaws C}.
Variable package_map : gmap string package_info.
Variables providers requirers : gmap string (list string).
Variable interest : gset string.

Abbreviation get := (@edges_get C _).
Abbreviation body := (level1_package package_map providers requirers interest).

Lemma edges_get_insert (e : gmap string C) k v s :
  get (<[k := v]> e) s = if decide (k = s) then v else get e s.
Proof.
  unfold edges_get. case_decide as Hk.
  - subst. by rewrite lookup_insert_eq.
  - by rewrite lookup_insert_ne.
Qed.

Lemma edges_get_empty s : c_items (get ∅ s) = [].
Proof. unfold edges_get. rewrite lookup_empty. simpl. apply c_items_new. Qed.

Lemma elem_of_dependencies (c0 : C) entities y :
  y ∈ c_items (foldl (λ deps entity, c_update (providers !!! entity) deps)
                     c0 entities)
  ↔ y ∈ c_items c0 ∨ ∃ entity, entity ∈ entities ∧ y ∈ providers !!! entity.
Proof.
  revert c0. induction entities as [|e es IH]; intros c0; simpl.
  - split; [by left | intros [?|(e & He & _)]; [done | inversion He]].
  - rewrite IH, elem_of_c_update. setoid_rewrite elem_of_cons. naive_solver.
Qed.

Lemma elem_of_mark_outside outside l x :
  x ∈ foldl (mark_outside interest) outside l
  ↔ x ∈ outside ∨ (x ∈ l ∧ x ∉ interest).
Proof.
  revert outside. induction l as [|d l IH]; intros outside; simpl.
  - split; [by left | intros [?|[Hx _]]; [done | inversion Hx]].
  - rewrite IH. unfold mark_outside. rewrite elem_of_cons.
    case_bool_decide; set_solver.
Qed.

(** The loop over [requirers[entity]] for one entity. *)
Lemma add_dependents_spec p (st : level1_state C) l :
  let st' := foldl (add_dependent interest p) st l in
  (∀ s d, d ∈ c_items (get (edges st') s)
          ↔ d ∈ c_items (get (edges st) s)
            ∨ (d = p ∧ s ∈ l ∧ s ∉ interest))
  ∧ (∀ x, x ∈ outside_nodes st'
          ↔ x ∈ outside_nodes st ∨ (x ∈ l ∧ x ∉ interest))
  ∧ error_nodes st' = error_nodes st.
Proof.
  revert st. induction l as [|q l IH]; intros st; simpl.
  - split; [|split; [|done]].
    + intros s d. split; [by left | intros [?|(_ & Hs & _)]; [done | inversion Hs]].
    + intros x. split; [by left | intros [?|[Hx _]]; [done | inversion Hx]].
  - destruct (IH (add_dependent interest p st q)) as (HE & HO & HR).
    split; [|split].
    + intros s d. rewrite HE. unfold add_dependent.
      case_bool_decide as Hq; simpl.
      * rewrite elem_of_cons. naive_solver.
      * rewrite edges_get_insert, elem_of_cons. case_decide as Hqs.
        -- subst s. rewrite elem_of_c_add. naive_solver.
        -- naive_solver.
    + intros x. rewrite HO. unfold add_dependent.
      case_bool_decide as Hq; simpl; rewrite elem_of_cons; set_solver.
    + rewrite HR. unfold add_dependent. by case_bool_decide.
Qed.

(** The loop over the provided entities. *)
Lemma add_all_dependents_spec p (st : level1_state C) entities :
  let st' := foldl (λ st' entity,
                      foldl (add_dependent interest p) st'
                            (requirers !!! entity)) st entities in
  (∀ s d, d ∈ c_items (get (edges st') s)
          ↔ d ∈ c_items (get (edges st) s)
            ∨ (d = p ∧ (s ∉ interest)
               ∧ ∃ entity, entity ∈ entities ∧ s ∈ requirers !!! entity))
  ∧ (∀ x, x ∈ outside_nodes st'
          ↔ x ∈ outside_nodes st
            ∨ ((x ∉ interest)
               ∧ ∃ entity, entity ∈ entities ∧ x ∈ requirers !!! entity))
  ∧ error_nodes st' = error_nodes st.
Proof.
  revert st. induction entities as [|e es IH]; intros st; simpl.
  - split; [|split; [|done]].
    + intros s d. split; [by left|]. intros [?|(_ & _ & e & He & _)]; [done | inversion He].
    + intros x. split; [by left|]. intros [?|(_ & e & He & _)]; [done | inversion He].
  - destruct (IH (foldl (add_dependent interest p) st (requirers !!! e)))
      as (HE & HO & HR).
    destruct (add_dependents_spec p st (requirers !!! e)) as (HE1 & HO1 & HR1).
    split; [|split].
    + intros s d. rewrite HE, HE1. setoid_rewrite elem_of_cons. naive_solver.
    + intros x. rewrite HO, HO1. setoid_rewrite elem_of_cons. naive_solver.
    + by rewrite HR, HR1.
Qed.

(** One iteration of the main loop. *)
Lemma level1_package_spec (st : level1_state C) p :
  let st' := body st p in
  (∀ s d, d ∈ c_items (get (edges st') s)
          ↔ d ∈ c_items (get (edges st) s)
            ∨ (s = p ∧ dep_of package_map providers p d)
            ∨ (d = p ∧ (s ∉ interest)
               ∧ dependent_of package_map requirers p s))
  ∧ (∀ x, x ∈ outside_nodes st'
          ↔ x ∈ outside_nodes st
            ∨ ((x ∉ interest)
               ∧ (is_Some (package_map !! p) ∧ x ∈ c_items (get (edges st) p)
                  ∨ dep_of package_map providers p x
                  ∨ dependent_of package_map requirers p x)))
  ∧ (∀ x, x ∈ error_nodes st'
          ↔ x ∈ error_nodes st ∨ (x = p ∧ package_map !! p = None)).
Proof.
  unfold level1_package, dep_of, dependent_of.
  destruct (package_map !! p) as [info|] eqn:Hinfo; simpl.
  - match goal with
    | |- context [foldl _ ?st1 (elements (provides info))] =>
        destruct (add_all_dependents_spec p st1 (elements (provides info)))
          as (HE & HO & HR)
    end.
    simpl in *. split; [|split].
    + intros s d. rewrite HE, edges_get_insert. case_decide as Hps.
      * subst s. rewrite elem_of_dependencies.
        setoid_rewrite elem_of_elements. naive_solver.
      * setoid_rewrite elem_of_elements. naive_solver.
    + intros x. rewrite HO, elem_of_mark_outside, elem_of_dependencies.
      setoid_rewrite elem_of_elements. naive_solver.
    + intros x. rewrite HR. naive_solver.
  - split; [|split].
    + intros s d. naive_solver.
    + intros x. split; [by left|]. intros [?|[_ [[[? ?] _]|[?|?]]]]; naive_solver.
    + intros x. rewrite elem_of_union, elem_of_singleton. naive_solver.
Qed.

(** The keys of [edges]. *)
Lemma add_dependents_keys p (st : level1_state C) l k :
  is_Some (edges (foldl (add_dependent interest p) st l) !! k) →
  is_Some (edges st !! k) ∨ k ∈ l.
Proof.
  revert st. induction l as [|q l IH]; intros st; simpl; [by left|].
  intros [Hk|Hk]%IH; [|right; by right].
  unfold add_dependent in Hk. case_bool_decide; [by left|]. simpl in Hk.
  destruct (decide (q = k)) as [->|Hne]; [right; by left|].
  rewrite lookup_insert_ne in Hk by done. by left.
Qed.

Lemma add_all_dependents_keys p (st : level1_state C) entities k :
  is_Some (edges (foldl (λ st' entity,
                           foldl (add_dependent interest p) st'
                                 (requirers !!! entity)) st entities) !! k) →
  is_Some (edges st !! k) ∨ ∃ entity, k ∈ requirers !!! entity.
Proof.
  revert st. induction entities as [|e es IH]; intros st; simpl; [by left|].
  intros [[Hk|Hk]%add_dependents_keys|Hk]%IH; eauto.
Qed.

Lemma level1_package_keys (st : level1_state C) p k :
  is_Some (edges (body st p) !! k) →
  is_Some (edges st !! k)
  ∨ (k = p ∧ is_Some (package_map !! p))
  ∨ ∃ entity, k ∈ requirers !!! entity.
Proof.
  unfold level1_package.
  destruct (package_map !! p) as [info|] eqn:Hinfo; simpl; [|by left].
  intros [Hk|Hk]%add_all_dependents_keys; [|by right; right].
  simpl in Hk. destruct (decide (p = k)) as [->|Hne]; [right; left; eauto|].
  rewrite lookup_insert_ne in Hk by done. by left.
Qed.

Lemma level1_loop_keys_from (st : level1_state C) l k :
  is_Some (edges (foldl body st l) !! k) →
  is_Some (edges st !! k)
  ∨ is_Some (package_map !! k)
  ∨ ∃ entity, k ∈ requirers !!! entity.
Proof.
  revert st. induction l as [|p l IH]; intros st; simpl; [by left|].
  intros [[Hk|[[-> Hk]|Hk]]%level1_package_keys|Hk]%IH; auto.
Qed.

Lemma level1_loop_keys order k :
  is_Some (edges (level1_loop package_map providers requirers interest
                    order : level1_state C) !! k) →
  is_Some (package_map !! k) ∨ ∃ entity, k ∈ requirers !!! entity.
Proof.
  intros [Hk|Hk]%level1_loop_keys_from; [|done].
  simpl in Hk. rewrite lookup_empty in Hk. by destruct Hk.
Qed.
End level1_facts.

Section level1_loop_facts.
Context {C : Type} `{CollectorLaws C}.
Variable package_map : gmap string package_info.
Variables providers requirers : gmap string (list string).
Variable interest : gset string.

Abbreviation get := (@edges_get C _).
Abbreviation body := (level1_package package_map providers requirers interest).
Abbreviation dep := (dep_of package_map providers).
Abbreviation dependent := (dependent_of package_map requirers).

Abbreviation linv := (level1_inv package_map providers requirers interest).

Lemma level1_inv_step seen st p :
  p ∈ interest → linv seen st → linv (seen ++ [p]) (body st p).
Proof.
  intros Hp (HE & HO & HR).
  destruct (level1_package_spec package_map providers requirers interest st p)
    as (HE' & HO' & HR').
  split; [|split].
  - intros s d. rewrite HE', HE. setoid_rewrite elem_of_app.
    setoid_rewrite list_elem_of_singleton. naive_solver.
  - intros x. rewrite HO', HO, HE. setoid_rewrite elem_of_app.
    setoid_rewrite list_elem_of_singleton. naive_solver.
  - intros x. rewrite HR', HR. setoid_rewrite elem_of_app.
    setoid_rewrite list_elem_of_singleton. naive_solver.
Qed.

Lemma level1_inv_from seen st l :
  (∀ p, p ∈ l → p ∈ interest) →
  linv seen st → linv (seen ++ l) (foldl body st l).
Proof.
  revert seen st. induction l as [|p l IH]; intros seen st Hl Hinv; simpl.
  - by rewrite app_nil_r.
  - replace (seen ++ p :: l) with ((seen ++ [p]) ++ l)
      by (by rewrite <- app_assoc).
    apply IH; [intros q Hq; apply Hl; by right|].
    apply level1_inv_step; [apply Hl; by left | done].
Qed.

Lemma level1_inv_start :
  linv [] {| edges := ∅; outside_nodes := ∅; error_nodes := ∅ |}.
Proof.
  split; [|split]; simpl.
  - intros s d. rewrite edges_get_empty. split.
    + inversion 1.
    + intros [[Hs _]|(_ & Hd & _)]; [inversion Hs | inversion Hd].
  - intros x. split; [set_solver|]. intros (_ & p & Hp & _). inversion Hp.
  - intros x. split; [set_solver|]. intros [Hx _]. inversion Hx.
Qed.

(** The result of the main loop, for any iteration order of the set of
    interest. *)
Lemma level1_loop_spec order :
  (∀ p, p ∈ order ↔ p ∈ interest) →
  let st := level1_loop package_map providers requirers interest order in
  (∀ s d, d ∈ c_items (get (edges st) s)
          ↔ (s ∈ interest ∧ dep s d)
            ∨ ((s ∉ interest) ∧ d ∈ interest ∧ dependent d s))
  ∧ (∀ x, x ∈ outside_nodes st
          ↔ (x ∉ interest) ∧ ∃ p, p ∈ interest ∧ (dep p x ∨ dependent p x))
  ∧ (∀ x, x ∈ error_nodes st ↔ x ∈ interest ∧ package_map !! x = None).
Proof.
  intros Horder st.
  destruct (level1_inv_from [] _ order (λ p, proj1 (Horder p)) level1_inv_start)
    as (HE & HO & HR).
  fold (level1_loop package_map providers requirers interest order) in HE, HO, HR.
  fold st in HE, HO, HR. simpl in *.
  split; [|split].
  - intros s d. rewrite HE. by setoid_rewrite Horder.
  - intros x. rewrite HO. by setoid_rewrite Horder.
  - intros x. rewrite HR. by setoid_rewrite Horder.
Qed.

Hypothesis providers_known :
  ∀ c n, n ∈ providers !!! c → is_Some (package_map !! n).
Hypothesis requirers_known :
  ∀ c n, n ∈ requirers !!! c → is_Some (package_map !! n).

Lemma dep_known p d : dep p d → is_Some (package_map !! p) ∧ is_Some (package_map !! d).
Proof. intros (info & c & Hinfo & _ & Hd). split; [eauto | by eapply providers_known]. Qed.

Lemma dependent_known p q :
  dependent p q → is_Some (package_map !! p) ∧ is_Some (package_map !! q).
Proof. intros (info & c & Hinfo & _ & Hq). split; [eauto | by eapply requirers_known]. Qed.
End level1_loop_facts.

(** ** The recorded edges and what is printed *)

Section edge_pairs_facts.
Context {C : Type} `{CollectorLaws C}.

Abbreviation pairs_of :=
  (λ kv : string * C, (λ required, (kv.1, required)) <$> c_items kv.2).

Lemma occ_pair_fmap (k s d : string) (l : list string) :
  occ (s, d) ((λ required, (k, required)) <$> l)
  = if decide (k = s) then occ d l else 0.
Proof.
  induction l as [|x l IH]; [by case_decide|].
  rewrite fmap_cons, !occ_cons, IH.
  destruct (decide (k = s)) as [->|Hk].
  - f_equal. destruct (decide (x = d)) as [->|Hx].
    + by rewrite decide_True.
    + rewrite decide_False; [done | congruence].
  - rewrite decide_False; [done | congruence].
Qed.

Lemma occ_pairs_absent (l : list (string * C)) s d :
  s ∉ l.*1 → occ (s, d) (l ≫= pairs_of) = 0.
Proof.
  induction l as [|[k c] l IH]; [done|].
  rewrite fmap_cons, not_elem_of_cons, bind_cons, occ_app. cbn [fst snd].
  intros [Hk Hl]. rewrite IH by done.
  rewrite occ_pair_fmap, decide_False; [done | congruence].
Qed.

Lemma occ_pairs_present (l : list (string * C)) s c d :
  NoDup l.*1 → (s, c) ∈ l → occ (s, d) (l ≫= pairs_of) = occ d (c_items c).
Proof.
  induction l as [|[k c'] l IH]; [by inversion 2|].
  rewrite fmap_cons, NoDup_cons, elem_of_cons, bind_cons, occ_app.
  cbn [fst snd].
  intros [Hk Hl] [[= <- <-]|Hin].
  - rewrite occ_pair_fmap, decide_True by done.
    rewrite occ_pairs_absent by done. lia.
  - rewrite occ_pair_fmap, IH by done.
    rewrite decide_False; [done|]. intros ->. apply Hk.
    by apply (list_elem_of_fmap_2 fst l (s, c)).
Qed.

Lemma occ_edge_pairs (e : gmap string C) s d :
  occ (s, d) (edge_pairs e) = occ d (c_items (edges_get e s)).
Proof.
  unfold edge_pairs, edges_get. destruct (e !! s) as [c|] eqn:Hs; simpl.
  - apply occ_pairs_present; [apply NoDup_fst_map_to_list|].
    by apply elem_of_map_to_list.
  - rewrite c_items_new, occ_nil. apply occ_pairs_absent.
    intros ([k c] & -> & Hin%elem_of_map_to_list)%list_elem_of_fmap.
    simpl in *. congruence.
Qed.

Lemma elem_of_edge_pairs (e : gmap string C) s d :
  (s, d) ∈ edge_pairs e ↔ d ∈ c_items (edges_get e s).
Proof. by rewrite <- !occ_pos, occ_edge_pairs. Qed.

Lemma concat_edge_statements (l : list (string * C)) :
  List.concat ((λ item, (λ required, Edge item.1 required) <$> c_items item.2)
               <$> l)
  = (λ edge, Edge edge.1 edge.2) <$> (l ≫= pairs_of).
Proof.
  induction l as [|[k c] l IH]; [done|].
  rewrite fmap_cons, bind_cons, fmap_app. simpl. rewrite IH. f_equal.
  by rewrite <- list_fmap_compose.
Qed.

Lemma level1_print_Ok package_map iknow (st : level1_state C) :
  (∀ x, x ∈ outside_nodes st → is_Some (package_map !! x)) →
  (∀ k c, edges st !! k = Some c →
          is_Some (package_map !! k)
          ∧ ∀ d, d ∈ c_items c → is_Some (package_map !! d)) →
  level1_print package_map iknow st
  = Ok (level1_statements iknow (error_nodes st) (outside_nodes st)
          (edge_pairs (edges st))).
Proof.
  intros Ho He. unfold level1_print.
  rewrite (rmap_Ok _ Node).
  2:{ intros x Hx%elem_of_elements. unfold print_outside.
      by destruct (getitem_Ok package_map x (Ho x Hx)) as (v & -> & _). }
  rewrite (rmap_Ok _ (λ item,
             (λ required, Edge item.1 required) <$> c_items item.2)).
  2:{ intros [k c] Hkc%elem_of_map_to_list. destruct (He k c Hkc) as [Hk Hc].
      unfold print_edges. simpl.
      destruct (getitem_Ok package_map k Hk) as (v & -> & _). simpl.
      apply rmap_Ok. intros d Hd.
      by destruct (getitem_Ok package_map d (Hc d Hd)) as (v' & -> & _). }
  simpl. by rewrite concat_edge_statements.
Qed.
End edge_pairs_facts.

Section level1_result_facts.
Context {C : Type} `{CollectorLaws C}.
Variable packages : list package_info.
Variable interest : gset string.

Abbreviation pm := (build_package_map packages).
Abbreviation dep := (dep_of pm (build_providers packages)).
Abbreviation dependent := (dependent_of pm (build_requirers packages)).
Abbreviation st := (level1_result C packages interest).

Lemma level1_result_spec :
  (∀ s d, (s, d) ∈ edge_pairs (edges st)
          ↔ (s ∈ interest ∧ dep s d)
            ∨ ((s ∉ interest) ∧ d ∈ interest ∧ dependent d s))
  ∧ (∀ x, x ∈ outside_nodes st
          ↔ (x ∉ interest) ∧ ∃ p, p ∈ interest ∧ (dep p x ∨ dependent p x))
  ∧ (∀ x, x ∈ error_nodes st ↔ x ∈ interest ∧ pm !! x = None).
Proof.
  destruct (level1_loop_spec pm (build_providers packages)
              (build_requirers packages) interest (elements interest)
              (λ p, elem_of_elements interest p)) as (HE & HO & HR).
  split; [|split; [done|done]].
  intros s d. rewrite elem_of_edge_pairs. apply HE.
Qed.

Lemma level1_result_print iknow :
  level1_print pm iknow st
  = Ok (level1_statements iknow (error_nodes st) (outside_nodes st)
          (edge_pairs (edges st))).
Proof.
  destruct level1_result_spec as (HE & HO & _).
  assert (∀ p d, dep p d → is_Some (pm !! p) ∧ is_Some (pm !! d)) as Hdep.
  { apply dep_known. intros c n. apply index_names_known. }
  assert (∀ p q, dependent p q → is_Some (pm !! p) ∧ is_Some (pm !! q)) as Hdpt.
  { apply dependent_known. intros c n. apply index_names_known. }
  apply level1_print_Ok.
  - intros x (_ & p & _ & [Hd|Hd])%HO; [by apply (Hdep p x) | by apply (Hdpt p x)].
  - intros k c Hkc. split.
    + destruct (level1_loop_keys pm (build_providers packages)
                  (build_requirers packages) interest (elements interest) k)
        as [?|[e He]]; [by exists c | done |].
      by eapply index_names_known.
    + intros d Hd.
      assert ((k, d) ∈ edge_pairs (edges st)) as Hin.
      { apply elem_of_edge_pairs. unfold edges_get. by rewrite Hkc. }
      apply HE in Hin as [[_ Hin]|(_ & _ & Hin)]; [by apply (Hdep k d)|].
      by destruct (Hdpt d k Hin).
Qed.
End level1_result_facts.

(** The bounded command never raises, and prints what it has computed. *)
Lemma level1_graph_Ok a packages :
  level1_graph a packages
  = Ok (level1_statements (i_know_what_im_doing a) (level1_errors a packages)
          (level1_outside a packages) (level1_edges a packages)).
Proof.
  unfold level1_graph, level1_errors, level1_outside, level1_edges.
  destruct (all_edges a); apply level1_result_print.
Qed.

(** The computed edges, outside nodes and error nodes, in either mode. *)
Lemma level1_spec a packages :
  let package_map := build_package_map packages in
  let interest := level1_interest a package_map in
  let dep := dep_of package_map (build_providers packages) in
  let dependent := dependent_of package_map (build_requirers packages) in
  (∀ s d, (s, d) ∈ level1_edges a packages
          ↔ (s ∈ interest ∧ dep s d)
            ∨ ((s ∉ interest) ∧ d ∈ interest ∧ dependent d s))
  ∧ (∀ x, x ∈ level1_outside a packages
          ↔ (x ∉ interest) ∧ ∃ p, p ∈ interest ∧ (dep p x ∨ dependent p x))
  ∧ (∀ x, x ∈ level1_errors a packages
          ↔ x ∈ interest ∧ package_map !! x = None).
Proof.
  unfold level1_errors, level1_outside, level1_edges.
  destruct (all_edges a); apply level1_result_spec.
Qed.

(** ** Counting the edges of the all-edges mode *)

Section all_edges_count.
Variable package_map : gmap string package_info.
Variables providers requirers : gmap string (list string).
Variable interest : gset string.

Abbreviation get := (@edges_get (list string) _).
Abbreviation body :=
  (@level1_package (list string) _ package_map providers requirers interest).

Lemma occ_dependencies (c0 : list string) entities d :
  occ d (foldl (λ deps entity, c_update (providers !!! entity) deps)
               c0 entities)
  = occ d c0 + sum_list ((λ c, occ d (providers !!! c)) <$> entities).
Proof.
  revert c0. induction entities as [|e es IH]; intros c0; simpl; [lia|].
  rewrite IH, occ_app. unfold fmap. lia.
Qed.

Lemma occ_add_dependents p (st : level1_state (list string)) l s d :
  occ d (get (edges (foldl (add_dependent interest p) st l)) s)
  = occ d (get (edges st) s)
    + (if decide (d = p ∧ s ∉ interest) then occ s l else 0).
Proof.
  revert st. induction l as [|q l IH]; intros st; simpl.
  - rewrite occ_nil. case_decide; lia.
  - rewrite IH, occ_cons. unfold add_dependent.
    case_bool_decide as Hq; simpl.
    + repeat case_decide; subst; try lia; tauto.
    + rewrite edges_get_insert.
      destruct (decide (q = s)) as [->|Hqs]; simpl;
        rewrite ?occ_app, ?occ_cons, ?occ_nil;
        repeat case_decide; subst; try lia; try tauto; naive_solver.
Qed.

Lemma occ_add_all_dependents p (st : level1_state (list string)) entities s d :
  occ d (get (edges (foldl (λ st' entity,
                              foldl (add_dependent interest p) st'
                                    (requirers !!! entity)) st entities)) s)
  = occ d (get (edges st) s)
    + (if decide (d = p ∧ s ∉ interest)
       then sum_list ((λ c, occ s (requirers !!! c)) <$> entities) else 0).
Proof.
  revert st. induction entities as [|e es IH]; intros st; simpl.
  - case_decide; lia.
  - rewrite IH, occ_add_dependents. unfold fmap. case_decide; lia.
Qed.

Abbreviation contribution :=
  (level1_contribution package_map providers requirers interest).

Lemma occ_level1_package st p s d :
  occ d (get (edges (body st p)) s)
  = occ d (get (edges st) s) + contribution p s d.
Proof.
  unfold level1_package, level1_contribution, deps_count, dependents_count.
  destruct (package_map !! p) as [info|]; simpl.
  - rewrite occ_add_all_dependents. simpl. rewrite edges_get_insert.
    destruct (decide (p = s)) as [->|Hps].
    + rewrite occ_dependencies, (decide_True (P := s = s)) by done. lia.
    + rewrite (decide_False (P := s = p)) by congruence. lia.
  - repeat case_decide; lia.
Qed.

Lemma occ_level1_from st l s d :
  occ d (get (edges (foldl body st l)) s)
  = occ d (get (edges st) s) + sum_list ((λ p, contribution p s d) <$> l).
Proof.
  revert st. induction l as [|p l IH]; intros st; simpl; [lia|].
  rewrite IH, occ_level1_package. unfold fmap. lia.
Qed.

Lemma sum_list_at {A : Type} `{EqDecision A} (l : list A) (x : A) (n : nat) :
  NoDup l →
  sum_list ((λ y, if decide (x = y) then n else 0) <$> l)
  = if decide (x ∈ l) then n else 0.
Proof.
  induction 1 as [|y l Hy Hl IH]; [done|].
  rewrite fmap_cons. simpl. rewrite IH.
  destruct (decide (x = y)) as [->|Hxy].
  - rewrite (decide_False (P := y ∈ l)) by done.
    rewrite decide_True; [lia | by left].
  - destruct (decide (x ∈ l)).
    + rewrite decide_True; [done | by right].
    + rewrite decide_False; [done|]. rewrite elem_of_cons. tauto.
Qed.

Lemma sum_list_add {A : Type} (f g : A → nat) (l : list A) :
  sum_list ((λ y, f y + g y) <$> l)
  = sum_list (f <$> l) + sum_list (g <$> l).
Proof. induction l as [|y l IH]; [done|]. rewrite !fmap_cons. simpl. lia. Qed.

Lemma sum_list_ext {A : Type} (f g : A → nat) (l : list A) :
  (∀ y, f y = g y) → sum_list (f <$> l) = sum_list (g <$> l).
Proof. intros Hfg. induction l as [|y l IH]; [done|]. rewrite !fmap_cons. simpl. by rewrite Hfg, IH. Qed.

(** The number of recorded edges from [s] to [d], for any iteration order
    of the set of interest. *)
Lemma occ_level1_loop order s d :
  NoDup order → (∀ p, p ∈ order ↔ p ∈ interest) →
  occ (s, d) (edge_pairs (edges (level1_loop package_map providers requirers
                                   interest order : level1_state (list string))))
  = (if decide (s ∈ interest) then deps_count package_map providers s d else 0)
    + (if decide (d ∈ interest ∧ s ∉ interest)
       then dependents_count package_map requirers d s else 0).
Proof.
  intros Hnd Horder. rewrite occ_edge_pairs. unfold level1_loop.
  etrans; [apply occ_level1_from|].
  cbn [edges]. unfold edges_get at 1. rewrite lookup_empty. simpl default.
  rewrite occ_nil, Nat.add_0_l. unfold level1_contribution.
  rewrite sum_list_add. f_equal.
  - rewrite (sum_list_ext _
      (λ p, if decide (s = p) then deps_count package_map providers s d else 0)).
    2:{ intros p. case_decide; [by subst|done]. }
    rewrite sum_list_at by done. apply decide_ext, Horder.
  - destruct (decide (s ∈ interest)) as [Hs|Hs].
    + rewrite (decide_False (P := d ∈ interest ∧ s ∉ interest)) by tauto.
      rewrite (sum_list_ext _ (λ _, 0)).
      2:{ intros p. rewrite decide_False; tauto. }
      clear. by induction order.
    + rewrite (sum_list_ext _
        (λ p, if decide (d = p)
              then dependents_count package_map requirers d s else 0)).
      2:{ intros p. destruct (decide (d = p)) as [->|].
          - by rewrite decide_True.
          - rewrite decide_False; tauto. }
      rewrite sum_list_at by done. apply decide_ext. rewrite Horder. tauto.
Qed.
End all_edges_count.

(** ** Uniquely named packages *)

Lemma sum_list_indicator (X Y : gset string) :
  sum_list ((λ c, if decide (c ∈ Y) then 1 else 0) <$> elements X)
  = size (X ∩ Y).
Proof.
  assert (∀ l : list string,
            sum_list ((λ c, if decide (c ∈ Y) then 1 else 0) <$> l)
            = length (filter (λ c, c ∈ Y) l)) as Hsum.
  { induction l as [|c l IH]; [done|].
    rewrite fmap_cons, filter_cons. simpl. rewrite IH. by case_decide. }
  rewrite Hsum. unfold size, set_size. simpl. apply Permutation_length.
  apply NoDup_Permutation.
  - apply NoDup_filter, NoDup_elements.
  - apply NoDup_elements.
  - intros c. rewrite list_elem_of_filter, !elem_of_elements. set_solver.
Qed.

Section unique_names.
Variable packages : list package_info.
Hypothesis names_unique : NoDup (name <$> packages).

Abbreviation pm := (build_package_map packages).

Lemma elem_of_index_unique field c d :
  d ∈ build_index field packages !!! c
  ↔ ∃ info, pm !! d = Some info ∧ c ∈ field info.
Proof.
  rewrite elem_of_build_index. split.
  - intros (p & Hp & <- & Hc). exists p. split; [|done].
    by apply package_map_unique.
  - intros (info & [Hin Hname]%package_map_Some & Hc). eauto.
Qed.

Lemma occ_index_unique field c d :
  occ d (build_index field packages !!! c)
  = match pm !! d with
    | Some info => if decide (c ∈ field info) then 1 else 0
    | None => 0
    end.
Proof.
  rewrite occ_NoDup.
  2:{ rewrite build_index_lookup.
      apply (sublist_NoDup _ (name <$> packages)); [exact names_unique|].
      apply (fmap_sublist name). apply sublist_filter. }
  destruct (pm !! d) as [info|] eqn:Hd.
  - apply decide_ext. rewrite elem_of_index_unique, Hd. naive_solver.
  - rewrite decide_False; [done|].
    rewrite elem_of_index_unique, Hd. naive_solver.
Qed.

Lemma deps_count_unique s d :
  deps_count pm (build_providers packages) s d
  = match pm !! s, pm !! d with
    | Some ps, Some pd => size (requires ps ∩ provides pd)
    | _, _ => 0
    end.
Proof.
  unfold deps_count. destruct (pm !! s) as [ps|]; [|done].
  unfold build_providers.
  destruct (pm !! d) as [pd|] eqn:Hd.
  - rewrite <- sum_list_indicator. apply sum_list_ext.
    intros c. by rewrite occ_index_unique, Hd.
  - rewrite (sum_list_ext _ (λ _, 0)).
    + by induction (elements (requires ps)).
    + intros c. by rewrite occ_index_unique, Hd.
Qed.

Lemma dependents_count_unique d s :
  dependents_count pm (build_requirers packages) d s
  = match pm !! s, pm !! d with
    | Some ps, Some pd => size (requires ps ∩ provides pd)
    | _, _ => 0
    end.
Proof.
  unfold dependents_count. destruct (pm !! d) as [pd|].
  2:{ by destruct (pm !! s). }
  unfold build_requirers.
  destruct (pm !! s) as [ps|] eqn:Hs.
  - replace (requires ps ∩ provides pd) with (provides pd ∩ requires ps)
      by set_solver.
    rewrite <- sum_list_indicator. apply sum_list_ext.
    intros c. by rewrite occ_index_unique, Hs.
  - rewrite (sum_list_ext _ (λ _, 0)).
    + by induction (elements (provides pd)).
    + intros c. by rewrite occ_index_unique, Hs.
Qed.

(** The capabilities that link [s] to [d] in the bounded traversal. *)
Lemma level1_triple_unique interest s d c :
  level1_triple packages interest s d c
  ↔ (s ∈ interest ∨ d ∈ interest)
    ∧ ∃ ps pd, pm !! s = Some ps ∧ pm !! d = Some pd
               ∧ c ∈ requires ps ∩ provides pd.
Proof.
  unfold level1_triple, build_providers, build_requirers.
  setoid_rewrite elem_of_index_unique. setoid_rewrite elem_of_intersection.
  destruct (decide (s ∈ interest)); naive_solver.
Qed.
End unique_names.

(** ** The statements of the bounded graph *)

Section level1_statements_facts.
Variables (iknow : bool) (errors outside : gset string).
Variable pairs : list (string * string).

Abbreviation out := (level1_statements iknow errors outside pairs).

Ltac split_statements :=
  unfold level1_statements;
  repeat (rewrite ?elem_of_app, ?elem_of_cons, ?elem_of_nil,
            ?list_elem_of_fmap);
  destruct iknow; repeat case_bool_decide;
  repeat (rewrite ?elem_of_app, ?elem_of_cons, ?elem_of_nil,
            ?list_elem_of_fmap).

Lemma elem_of_statements_Node n : Node n ∈ out ↔ n ∈ outside.
Proof.
  split_statements; try setoid_rewrite elem_of_elements; subst;
    naive_solver set_solver.
Qed.

Lemma elem_of_statements_ErrorNode n : ErrorNode n ∈ out ↔ n ∈ errors.
Proof.
  split_statements; try setoid_rewrite elem_of_elements; subst;
    naive_solver set_solver.
Qed.

Lemma elem_of_statements_Edge s d : Edge s d ∈ out ↔ (s, d) ∈ pairs.
Proof.
  assert ((∃ y : string * string, Edge s d = Edge y.1 y.2 ∧ y ∈ pairs)
          ↔ (s, d) ∈ pairs) as Hpairs.
  { split; [intros ([s' d'] & [= -> ->] & ?); done | by exists (s, d)]. }
  split_statements; rewrite Hpairs; naive_solver.
Qed.

Lemma statements_no_RedNode n : RedNode n ∉ out.
Proof. split_statements; naive_solver. Qed.

Lemma statements_no_LabelledEdge p d c : LabelledEdge p d c ∉ out.
Proof. split_statements; naive_solver. Qed.

Lemma statements_mentions n s :
  s ∈ out → mentions n s →
  n ∈ outside ∨ n ∈ errors ∨ ∃ s' d', (s', d') ∈ pairs ∧ (s' = n ∨ d' = n).
Proof.
  intros Hs Hm. destruct s as [| |m|m|m|p d c|p d]; simpl in Hm; try done.
  - subst. left. by apply elem_of_statements_Node.
  - by apply statements_no_RedNode in Hs.
  - subst. right. left. by apply elem_of_statements_ErrorNode.
  - by apply statements_no_LabelledEdge in Hs.
  - right. right. exists p, d. split; [|done]. by apply elem_of_statements_Edge.
Qed.
End level1_statements_facts.

(** ** The bounded traversal as a whole *)

(** C3 (bounded traversal).  In either mode, for a known package [p] of the
    set of interest: every provider [d] of a capability [p] requires gets
    the edge from [p] to [d], and is an outside node when it is not of
    interest; every [q] listed as requiring a capability [p] provides, and
    not of interest, is an outside node and gets the edge from [q] to [p].
    These are all the edges and outside nodes there are, and they are what
    the command prints.  With interest B over the three scenario packages
    in deduplicated mode the outside nodes are A and C and the edges are
    B to A and C to B. *)
Theorem bounded_traversal_correct :
  (∀ a packages p info,
     let package_map := build_package_map packages in
     let interest := level1_interest a package_map in
     p ∈ interest → package_map !! p = Some info →
     (∀ c d, c ∈ requires info → d ∈ build_providers packages !!! c →
             (p, d) ∈ level1_edges a packages
             ∧ (d ∉ interest → d ∈ level1_outside a packages))
     ∧ (∀ c q, c ∈ provides info → q ∈ build_requirers packages !!! c →
               q ∉ interest →
               q ∈ level1_outside a packages
               ∧ (q, p) ∈ level1_edges a packages))
  ∧ (∀ a packages,
       let package_map := build_package_map packages in
       let interest := level1_interest a package_map in
       let dep := dep_of package_map (build_providers packages) in
       let dependent := dependent_of package_map (build_requirers packages) in
       (∀ s d, (s, d) ∈ level1_edges a packages
               ↔ (s ∈ interest ∧ dep s d)
                 ∨ ((s ∉ interest) ∧ d ∈ interest ∧ dependent d s))
       ∧ (∀ x, x ∈ level1_outside a packages
               ↔ (x ∉ interest)
                 ∧ ∃ p, p ∈ interest ∧ (dep p x ∨ dependent p x))
       ∧ level1_graph a packages
         = Ok (level1_statements (i_know_what_im_doing a)
                 (level1_errors a packages) (level1_outside a packages)
                 (level1_edges a packages)))
  ∧ level1_outside bounded_B scenario = {["A"; "C"]}
  ∧ level1_edges bounded_B scenario ≡ₚ [("B", "A"); ("C", "B")]
  ∧ level1_graph bounded_B scenario
    = Ok [Line "digraph {"; Line "node [style=filled]";
          Line "{ node [fillcolor=aliceblue]"; Node "C"; Node "A"; Line "}";
          Edge "C" "B"; Edge "B" "A"; Line "}"].
Proof.
  split; [|split; [|split; [|split]]].
  - intros a packages p info package_map interest Hp Hinfo.
    destruct (level1_spec a packages) as (HE & HO & _).
    split.
    + intros c d Hc Hd.
      assert (dep_of package_map (build_providers packages) p d) as Hdep
        by (by exists info, c).
      split.
      * apply HE. by left.
      * intros Hout. apply HO. split; [done|]. exists p. auto.
    + intros c q Hc Hq Hout.
      assert (dependent_of package_map (build_requirers packages) p q) as Hdep
        by (by exists info, c).
      split.
      * apply HO. split; [done|]. exists p. auto.
      * apply HE. right. auto.
  - intros a packages package_map interest dep dependent.
    destruct (level1_spec a packages) as (HE & HO & _).
    split; [done|]. split; [done|]. apply level1_graph_Ok.
  - vm_compute. reflexivity.
  - replace (level1_edges bounded_B scenario) with [("C", "B"); ("B", "A")]
      by (vm_compute; reflexivity).
    apply perm_swap.
  - vm_compute. reflexivity.
Qed.

(** B is of interest, requires x, and A provides x. *)
Lemma bounded_traversal_correct_witness :
  "B" ∈ level1_interest bounded_B (build_package_map scenario)
  ∧ build_package_map scenario !! "B" = Some pkg_B
  ∧ "x" ∈ requires pkg_B
  ∧ "A" ∈ build_providers scenario !!! "x"
  ∧ ("B", "A") ∈ level1_edges bounded_B scenario.
Proof.
  assert ("B" ∈ level1_interest bounded_B (build_package_map scenario)) as H1
    by (apply (bool_decide_unpack _); vm_compute; exact I).
  assert (build_package_map scenario !! "B" = Some pkg_B) as H2
    by (vm_compute; reflexivity).
  assert ("x" ∈ requires pkg_B) as H3
    by (apply (bool_decide_unpack _); vm_compute; exact I).
  assert ("A" ∈ build_providers scenario !!! "x") as H4
    by (apply (bool_decide_unpack _); vm_compute; exact I).
  split; [exact H1|]. split; [exact H2|]. split; [exact H3|].
  split; [exact H4|].
  exact (proj1 (proj1 (proj1 bounded_traversal_correct
                         bounded_B scenario "B" pkg_B H1 H2) "x" "A" H3 H4)).
Defined.

(** ** Edge counting *)

Lemma occ_statements_Edge iknow errors outside pairs s d :
  occ (Edge s d) (level1_statements iknow errors outside pairs)
  = occ (s, d) pairs.
Proof.
  assert (∀ l : list stmt, (∀ x, x ∈ l → ∀ s' d', x ≠ Edge s' d') →
                           occ (Edge s d) l = 0) as Hnone.
  { intros l Hl. apply occ_zero. intros Hin. by apply (Hl _ Hin s d). }
  assert (occ (Edge s d) ((λ edge, Edge edge.1 edge.2) <$> pairs)
          = occ (s, d) pairs) as Hpairs.
  { induction pairs as [|[s' d'] l IH]; [done|].
    rewrite fmap_cons, !occ_cons, IH. simpl. f_equal.
    destruct (decide ((s', d') = (s, d))) as [[= -> ->]|Hne].
    - by rewrite decide_True.
    - rewrite decide_False; [done | congruence]. }
  unfold level1_statements. rewrite !occ_app, Hpairs.
  rewrite (Hnone [Line "digraph {"; Line "node [style=filled]"]).
  2:{ intros x Hx. repeat (apply elem_of_cons in Hx as [->|Hx]; [done|]).
      inversion Hx. }
  rewrite (Hnone (if iknow then [] else [WarningLabel])).
  2:{ intros x Hx. destruct iknow; [inversion Hx|].
      apply list_elem_of_singleton in Hx as ->. done. }
  rewrite (Hnone (if bool_decide (errors = ∅) then [] else _)).
  2:{ intros x Hx. case_bool_decide; [inversion Hx|].
      rewrite !elem_of_app, list_elem_of_fmap, !list_elem_of_singleton in Hx.
      destruct Hx as [->|[(n & -> & _)| ->]]; done. }
  rewrite (Hnone (if bool_decide (outside = ∅) then [] else _)).
  2:{ intros x Hx. case_bool_decide; [inversion Hx|].
      rewrite !elem_of_app, list_elem_of_fmap, !list_elem_of_singleton in Hx.
      destruct Hx as [->|[(n & -> & _)| ->]]; done. }
  rewrite (Hnone [Line "}"]).
  2:{ intros x Hx. apply list_elem_of_singleton in Hx as ->. done. }
  lia.
Qed.

Lemma dedup_edges_NoDup packages interest :
  NoDup (edge_pairs (edges (level1_result (gset string) packages interest))).
Proof.
  apply NoDup_occ. intros [s d]. rewrite occ_edge_pairs. simpl.
  rewrite occ_NoDup by apply NoDup_elements. case_decide; lia.
Qed.

Lemma all_edges_occ packages interest s d :
  let package_map := build_package_map packages in
  occ (s, d)
      (edge_pairs (edges (level1_result (list string) packages interest)))
  = (if decide (s ∈ interest)
     then deps_count package_map (build_providers packages) s d else 0)
    + (if decide (d ∈ interest ∧ s ∉ interest)
       then dependents_count package_map (build_requirers packages) d s
       else 0).
Proof.
  apply occ_level1_loop; [apply NoDup_elements|].
  intros p. apply elem_of_elements.
Qed.

Lemma all_edges_triples packages interest s d :
  NoDup (name <$> packages) →
  ∃ X : gset string,
    (∀ c, c ∈ X ↔ level1_triple packages interest s d c)
    ∧ occ (s, d)
        (edge_pairs (edges (level1_result (list string) packages interest)))
      = size X.
Proof.
  intros Hnames.
  set (pm := build_package_map packages).
  set (links := match pm !! s, pm !! d with
                | Some ps, Some pd => requires ps ∩ provides pd
                | _, _ => ∅
                end : gset string).
  assert (∀ c, c ∈ links ↔ ∃ ps pd, pm !! s = Some ps ∧ pm !! d = Some pd
                                    ∧ c ∈ requires ps ∩ provides pd) as Hlinks.
  { intros c. unfold links.
    destruct (pm !! s) as [ps|]; [destruct (pm !! d) as [pd|]|];
      [naive_solver | |]; (split; [set_solver | naive_solver]). }
  assert (size links = match pm !! s, pm !! d with
                       | Some ps, Some pd => size (requires ps ∩ provides pd)
                       | _, _ => 0
                       end) as Hsize.
  { unfold links. destruct (pm !! s); [destruct (pm !! d)|]; done. }
  exists (if decide (s ∈ interest ∨ d ∈ interest) then links else ∅).
  split.
  - intros c. rewrite level1_triple_unique by done. fold pm.
    rewrite <- Hlinks. case_decide; set_solver.
  - rewrite all_edges_occ. cbv zeta.
    rewrite deps_count_unique, dependents_count_unique by done. fold pm.
    rewrite <- Hsize.
    destruct (decide (s ∈ interest)) as [Hs|Hs].
    + rewrite (decide_False (P := d ∈ interest ∧ s ∉ interest)) by tauto.
      rewrite decide_True by tauto. lia.
    + destruct (decide (d ∈ interest)) as [Hd|Hd].
      * rewrite !decide_True by tauto. lia.
      * rewrite !decide_False by tauto. by rewrite size_empty.
Qed.

(** In the all-edges mode the two edges from Q to P, one for each of the
    capabilities x and y, are printed as the same unlabelled statement: the
    output holds no edge labelled x, although (Q, P, x) is a triple the
    resolution identifies. *)
Lemma all_edges_labels_lost :
  ¬ (∀ a packages out s d c,
       all_edges a = true →
       level1_graph a packages = Ok out →
       level1_triple packages
         (level1_interest a (build_package_map packages)) s d c →
       LabelledEdge s d c ∈ out).
Proof.
  intros Hclaim.
  specialize (Hclaim all_edges_Q [pkg_P; pkg_Q] _ "Q" "P" "x" eq_refl
                (level1_graph_Ok _ _)).
  eapply statements_no_LabelledEdge, Hclaim.
  left. split; [by apply (bool_decide_unpack _)|]. exists pkg_Q.
  split; [by vm_compute|]. split; by apply (bool_decide_unpack _).
Qed.

(** C4 (edge counting), amended.  The deduplicated mode records no
    (source, destination) pair twice.  The all-edges mode records the pair
    [(s, d)] once per capability [s] requires and per entry of [d] in the
    provider list of that capability when [s] is of interest, and once per
    capability [d] provides and per entry of [s] in its requirer list when
    [d] is of interest and [s] is not; with uniquely named packages that is
    exactly once per identified (source, destination, capability) triple.
    Every recorded pair is printed as one edge statement, and no edge of
    the bounded graph carries a capability label: parallel edges are
    repeated identical statements. *)
Theorem edge_counting_policy :
  (∀ a packages, all_edges a = false → NoDup (level1_edges a packages))
  ∧ (∀ a packages s d,
       let package_map := build_package_map packages in
       let interest := level1_interest a package_map in
       all_edges a = true →
       occ (s, d) (level1_edges a packages)
       = (if decide (s ∈ interest)
          then deps_count package_map (build_providers packages) s d else 0)
         + (if decide (d ∈ interest ∧ s ∉ interest)
            then dependents_count package_map (build_requirers packages) d s
            else 0))
  ∧ (∀ a packages s d,
       all_edges a = true → NoDup (name <$> packages) →
       ∃ X : gset string,
         (∀ c, c ∈ X ↔
               level1_triple packages
                 (level1_interest a (build_package_map packages)) s d c)
         ∧ occ (s, d) (level1_edges a packages) = size X)
  ∧ (∀ a packages,
       ∃ out, level1_graph a packages = Ok out
              ∧ (∀ s d, occ (Edge s d) out
                        = occ (s, d) (level1_edges a packages))
              ∧ (∀ s d c, LabelledEdge s d c ∉ out))
  ∧ level1_graph all_edges_Q [pkg_P; pkg_Q]
    = Ok [Line "digraph {"; Line "node [style=filled]";
          Line "{ node [fillcolor=aliceblue]"; Node "P"; Line "}";
          Edge "Q" "P"; Edge "Q" "P"; Line "}"].
Proof.
  split; [|split; [|split; [|split]]].
  - intros a packages Ha. unfold level1_edges. rewrite Ha.
    apply dedup_edges_NoDup.
  - intros a packages s d package_map interest Ha. unfold level1_edges.
    rewrite Ha. apply all_edges_occ.
  - intros a packages s d Ha Hnames. unfold level1_edges. rewrite Ha.
    by apply all_edges_triples.
  - intros a packages. eexists. split; [apply level1_graph_Ok|]. split.
    + intros s d. apply occ_statements_Edge.
    + intros s d c. apply statements_no_LabelledEdge.
  - vm_compute. reflexivity.
Qed.

(** A uniquely named package list and a pair of packages to count the
    edges of. *)
Lemma edge_counting_policy_witness :
  all_edges all_edges_Q = true
  ∧ NoDup (name <$> [pkg_P; pkg_Q])
  ∧ ∃ X : gset string,
      (∀ c, c ∈ X ↔
            level1_triple [pkg_P; pkg_Q]
              (level1_interest all_edges_Q
                 (build_package_map [pkg_P; pkg_Q])) "Q" "P" c)
      ∧ occ ("Q", "P") (level1_edges all_edges_Q [pkg_P; pkg_Q]) = size X.
Proof.
  assert (NoDup (name <$> [pkg_P; pkg_Q])) as Hnames.
  { simpl. repeat constructor; set_solver. }
  split; [reflexivity|]. split; [exact Hnames|].
  exact (proj1 (proj2 (proj2 edge_counting_policy))
           all_edges_Q [pkg_P; pkg_Q] "Q" "P" eq_refl Hnames).
Defined.

(** ** Names that match no package *)

Lemma level1_names_known a packages :
  let package_map := build_package_map packages in
  (∀ s d, (s, d) ∈ level1_edges a packages →
          is_Some (package_map !! s) ∧ is_Some (package_map !! d))
  ∧ (∀ x, x ∈ level1_outside a packages → is_Some (package_map !! x)).
Proof.
  intros package_map. destruct (level1_spec a packages) as (HE & HO & _).
  assert (∀ p d, dep_of package_map (build_providers packages) p d →
                 is_Some (package_map !! p) ∧ is_Some (package_map !! d))
    as Hdep.
  { apply dep_known. intros c n. apply index_names_known. }
  assert (∀ p q, dependent_of package_map (build_requirers packages) p q →
                 is_Some (package_map !! p) ∧ is_Some (package_map !! q))
    as Hdpt.
  { apply dependent_known. intros c n. apply index_names_known. }
  split.
  - intros s d [[_ Hd]|(_ & _ & Hd)]%HE; [by apply Hdep|].
    destruct (Hdpt d s Hd). done.
  - intros x (_ & p & _ & [Hd|Hd])%HO; [by apply (Hdep p x) | by apply (Hdpt p x)].
Qed.

Lemma closure_printed_known packages seeds st s n :
  closure_reachable packages seeds st →
  s ∈ printed st → mentions n s →
  is_Some (build_package_map packages !! n).
Proof.
  intros Hinv%closure_reachable_inv Hs Hm.
  destruct (inv_only_edges _ _ _ _ Hinv s Hs) as (p & d & c & ->).
  apply occ_pos in Hs. rewrite (inv_edges _ _ _ _ Hinv) in Hs.
  destruct (build_package_map packages !! p) as [info|] eqn:Hp; [|lia].
  case_decide; [|lia]. apply occ_pos in Hs.
  destruct Hm as [<-|<-]; [by rewrite Hp|].
  by eapply index_names_known.
Qed.

Lemma closure_unknown_seed_end packages n final :
  build_package_map packages !! n = None →
  closure_reachable packages {[n]} final → graph_packages final = ∅ →
  visited final = {[n]} ∧ printed final = [].
Proof.
  intros Hn Hreach Hempty.
  pose proof (closure_reachable_inv _ _ _ Hreach) as Hinv.
  assert (visited final = {[n]}) as Hv.
  { apply set_eq. intros m. rewrite (closure_end_visited _ _ _ _ _ Hinv Hempty).
    rewrite elem_of_singleton. split.
    - induction 1 as [m Hm | p info c d _ IH Hinfo _ _]; [set_solver|].
      subst p. congruence.
    - intros ->. apply reach_seed. set_solver. }
  split; [done|].
  destruct (printed final) as [|s l] eqn:Hprinted; [done|].
  assert (s ∈ printed final) as Hs by (rewrite Hprinted; by left).
  destruct (inv_only_edges _ _ _ _ Hinv s Hs) as (p & d & c & ->).
  apply occ_pos in Hs. rewrite (inv_edges _ _ _ _ Hinv) in Hs.
  destruct (build_package_map packages !! p) as [info|] eqn:Hp; [|lia].
  case_decide as Hpv; [|lia]. destruct Hpv as [Hpv _].
  rewrite Hv in Hpv. apply elem_of_singleton in Hpv. congruence.
Qed.

(** C6 (unresolved names).  Closure mode: a seed that names no package is
    printed as a red node and not as a plain node; in every state of the
    work loop it is visited, so it is never expanded, and no printed edge
    names it; the command returns its output whatever the names are; seeded
    with one such name alone every run ends with that name as the only
    visited one and no edge.  Bounded mode: the command returns its output
    whatever the names are, and a named package that does not exist is an
    error node, printed as such, is not an outside node, and no edge names
    it. *)
Theorem unresolved_names_not_fatal :
  (∀ packages seeds n,
     let package_map := build_package_map packages in
     n ∈ seeds → package_map !! n = None →
     RedNode n ∈ (closure_init package_map seeds).1
     ∧ (Node n ∉ (closure_init package_map seeds).1)
     ∧ ∀ st, closure_reachable packages seeds st →
             n ∈ visited st ∧ ∀ s, s ∈ printed st → ¬ mentions n s)
  ∧ (∀ a packages,
       ∃ out, requirements_graph a packages = Some (Ok out)
              ∧ ∀ n, n ∈ package a →
                     build_package_map packages !! n = None →
                     RedNode n ∈ out)
  ∧ (∀ packages n final,
       build_package_map packages !! n = None →
       closure_reachable packages {[n]} final → graph_packages final = ∅ →
       visited final = {[n]} ∧ printed final = [])
  ∧ requirements_graph closure_ghost scenario
    = Some (Ok [Line "digraph {";
                Line "node [style=filled fillcolor=aliceblue]";
                Line "{ node [fillcolor=lightgrey]";
                RedNode "ghost"; Line "}"; Line "}"])
  ∧ (∀ a packages,
       ∃ out, level1_graph a packages = Ok out
              ∧ ∀ n, n ∈ package a →
                     build_package_map packages !! n = None →
                     n ∈ level1_errors a packages
                     ∧ (n ∉ level1_outside a packages)
                     ∧ ErrorNode n ∈ out
                     ∧ ∀ s, s ∈ out → mentions n s → s = ErrorNode n).
Proof.
  split; [|split; [|split; [|split]]].
  - intros packages seeds n package_map Hn Hnone.
    rewrite closure_init_nodes. split; [|split].
    + apply list_elem_of_fmap. exists n.
      split; [unfold seed_stmt; by rewrite Hnone | by apply elem_of_elements].
    + intros (m & Hm & _)%list_elem_of_fmap. unfold seed_stmt in Hm.
      destruct (package_map !! m) eqn:Hlook; [|done].
      injection Hm as ->. congruence.
    + intros st Hreach. split.
      * by apply (inv_unknown _ _ _ _ (closure_reachable_inv _ _ _ Hreach)).
      * intros s Hs Hm.
        destruct (closure_printed_known _ _ _ _ _ Hreach Hs Hm) as [? Hk].
        fold package_map in Hk. congruence.
  - intros a packages.
    destruct (requirements_graph_Ok a packages) as (final & _ & _ & ->).
    eexists. split; [done|]. intros n Hn Hnone.
    rewrite !elem_of_app. right. right. right. left.
    apply list_elem_of_fmap. exists n. split.
    + unfold seed_stmt. by rewrite Hnone.
    + by apply elem_of_elements, elem_of_list_to_set.
  - intros packages n final. apply closure_unknown_seed_end.
  - vm_compute. reflexivity.
  - intros a packages. eexists. split; [apply level1_graph_Ok|].
    intros n Hn Hnone.
    destruct (level1_spec a packages) as (_ & HO & HR).
    destruct (level1_names_known a packages) as (HEk & HOk).
    assert (n ∈ level1_errors a packages) as Herr.
    { apply HR. split; [|done]. unfold level1_interest.
      destruct (package a) as [|x l] eqn:Hpk; [inversion Hn|].
      by apply elem_of_list_to_set. }
    assert (n ∉ level1_outside a packages) as Hout.
    { intros [? ?]%HOk. congruence. }
    split; [done|]. split; [done|]. split.
    + by apply elem_of_statements_ErrorNode.
    + intros s Hs Hm. destruct s as [| |m|m|m|p d c|p d]; simpl in Hm; try done.
      * subst. by apply elem_of_statements_Node in Hs.
      * by apply statements_no_RedNode in Hs.
      * by subst.
      * by apply statements_no_LabelledEdge in Hs.
      * apply elem_of_statements_Edge, HEk in Hs as [[? ?] [? ?]].
        destruct Hm; subst; congruence.
Qed.

(** The seed ghost names none of the scenario packages. *)
Lemma unresolved_names_not_fatal_witness :
  "ghost" ∈ ({["ghost"]} : gset string)
  ∧ build_package_map scenario !! "ghost" = None
  ∧ RedNode "ghost" ∈ (closure_init (build_package_map scenario) {["ghost"]}).1.
Proof.
  assert ("ghost" ∈ ({["ghost"]} : gset string)) as H1
    by (apply (bool_decide_unpack _); vm_compute; exact I).
  assert (build_package_map scenario !! "ghost" = None) as H2
    by (vm_compute; reflexivity).
  split; [exact H1|]. split; [exact H2|].
  exact (proj1 (proj1 unresolved_names_not_fatal
                  scenario {["ghost"]} "ghost" H1 H2)).
Defined.

(** ** Node statements of the bounded graph *)

(** With A and B both of interest, A has no dependencies and no dependents
    outside the set of interest, and yet the printed edge from B to A names
    it. *)
Lemma inside_dependent_present :
  ¬ (∀ a packages p info out,
       let package_map := build_package_map packages in
       let interest := level1_interest a package_map in
       p ∈ interest → package_map !! p = Some info →
       (∀ c, c ∈ requires info → build_providers packages !!! c = []) →
       (∀ c q, c ∈ provides info → q ∈ build_requirers packages !!! c →
               q ∈ interest) →
       level1_graph a packages = Ok out →
       ∀ s, s ∈ out → ¬ mentions p s).
Proof.
  intros Hclaim. cbv zeta in Hclaim.
  assert (¬ mentions "A" (Edge "B" "A")) as Hno; [|apply Hno; simpl; by right].
  eapply (Hclaim bounded_A_B [pkg_A; pkg_B] "A" pkg_A).
  - by apply (bool_decide_unpack _).
  - by vm_compute.
  - intros c Hc. by apply not_elem_of_empty in Hc.
  - intros c q Hc Hq. unfold pkg_A in Hc. simpl in Hc.
    apply elem_of_singleton in Hc. subst c.
    vm_compute in Hq. apply list_elem_of_singleton in Hq as ->.
    by apply (bool_decide_unpack _).
  - vm_compute. reflexivity.
  - by apply (bool_decide_unpack _).
Qed.

(** C10 (node statements in bounded mode), amended.  The command prints a
    node statement exactly for the outside nodes and, in the red block, for
    the error nodes; a known package of interest gets none, so a statement
    that names it is an edge from or to it.  Such a package is absent from
    the output when it has no dependencies, no dependents outside the set
    of interest and no package of interest depends on it. *)
Theorem bounded_node_statements :
  ∀ a packages,
    let package_map := build_package_map packages in
    let interest := level1_interest a package_map in
    ∃ out,
      level1_graph a packages = Ok out
      ∧ (∀ n, Node n ∈ out ↔ n ∈ level1_outside a packages)
      ∧ (∀ n, ErrorNode n ∈ out ↔ n ∈ level1_errors a packages)
      ∧ (∀ n, RedNode n ∉ out)
      ∧ (∀ p info,
           p ∈ interest → package_map !! p = Some info →
           (Node p ∉ out) ∧ (ErrorNode p ∉ out)
           ∧ (∀ s, s ∈ out → mentions p s →
                   ∃ q, (s = Edge p q ∨ s = Edge q p)
                        ∧ ((p, q) ∈ level1_edges a packages
                           ∨ (q, p) ∈ level1_edges a packages)))
      ∧ (∀ p info,
           p ∈ interest → package_map !! p = Some info →
           (∀ c, c ∈ requires info → build_providers packages !!! c = []) →
           (∀ c q, c ∈ provides info →
                   q ∈ build_requirers packages !!! c → q ∈ interest) →
           (∀ q, q ∈ interest →
                 ¬ dep_of package_map (build_providers packages) q p) →
           ∀ s, s ∈ out → ¬ mentions p s).
Proof.
  intros a packages package_map interest.
  destruct (level1_spec a packages) as (HE & HO & HR).
  fold package_map interest in HE, HO, HR.
  eexists. split; [apply level1_graph_Ok|].
  assert (∀ p info, p ∈ interest → package_map !! p = Some info →
                    (p ∉ level1_outside a packages)
                    ∧ (p ∉ level1_errors a packages)) as Hnone.
  { intros p info Hp Hinfo. split.
    - intros [Hout _]%HO. done.
    - intros [_ Herr]%HR. congruence. }
  split; [apply elem_of_statements_Node|].
  split; [apply elem_of_statements_ErrorNode|].
  split; [apply statements_no_RedNode|]. split.
  - intros p info Hp Hinfo. destruct (Hnone p info Hp Hinfo) as [Hout Herr].
    split; [by rewrite elem_of_statements_Node|].
    split; [by rewrite elem_of_statements_ErrorNode|].
    intros s Hs Hm.
    destruct s as [| |m|m|m|x d c|x d]; simpl in Hm; try done.
    + subst. by apply elem_of_statements_Node in Hs.
    + by apply statements_no_RedNode in Hs.
    + subst. by apply elem_of_statements_ErrorNode in Hs.
    + by apply statements_no_LabelledEdge in Hs.
    + apply elem_of_statements_Edge in Hs.
      destruct Hm as [->| ->]; [exists d | exists x]; auto.
  - intros p info Hp Hinfo Hdeps Houtside Hinside s Hs Hm.
    destruct (Hnone p info Hp Hinfo) as [Hout Herr].
    destruct (statements_mentions _ _ _ _ _ _ Hs Hm)
      as [?|[?|(x & d & Hxd & Hp')]]; [done|done|].
    apply HE in Hxd as [[Hx Hdep]|(Hx & Hd & Hdep)].
    + destruct Hp' as [->| ->].
      * destruct Hdep as (info' & c & Hinfo' & Hc & Hin).
        assert (info' = info) as -> by congruence.
        rewrite (Hdeps c Hc) in Hin. inversion Hin.
      * by apply (Hinside x).
    + destruct Hp' as [->| ->]; [done|].
      destruct Hdep as (info' & c & Hinfo' & Hc & Hin).
      assert (info' = info) as -> by congruence.
      apply Hx. by apply (Houtside c).
Qed.

(** A alone, with every package of interest: nothing names it. *)
Lemma bounded_node_statements_witness :
  ∃ out, level1_graph bounded_all [pkg_A] = Ok out
         ∧ ∀ s, s ∈ out → ¬ mentions "A" s.
Proof.
  destruct (bounded_node_statements bounded_all [pkg_A])
    as (out & Hout & _ & _ & _ & _ & Habsent).
  exists out. split; [exact Hout|].
  apply (Habsent "A" pkg_A).
  - apply (bool_decide_unpack _). vm_compute. exact I.
  - vm_compute. reflexivity.
  - intros c Hc. apply not_elem_of_empty in Hc. destruct Hc.
  - intros c q Hc Hq. unfold pkg_A in Hc. simpl in Hc.
    apply elem_of_singleton in Hc. subst c. vm_compute in Hq.
    apply elem_of_nil in Hq. destruct Hq.
  - intros q Hq (info & c & Hinfo & Hc & _).
    assert (level1_interest bounded_all (build_package_map [pkg_A])
            = {["A"]}) as Hinterest by (vm_compute; reflexivity).
    rewrite Hinterest in Hq. apply elem_of_singleton in Hq. subst q.
    vm_compute in Hinfo. injection Hinfo as <-.
    apply not_elem_of_empty in Hc. destruct Hc.
Defined.

(** * Further properties of the code *)

(** ** [extract_entity] *)

Lemma append_cons c (s1 s2 : string) :
  String c s1 +:+ s2 = String c (s1 +:+ s2).
Proof. reflexivity. Qed.

Lemma entity_prefix_cons c rest :
  entity_prefix (String c rest)
  = if stop_char c then EmptyString else String c (entity_prefix rest).
Proof. reflexivity. Qed.

Lemma entity_prefix_clean entity : clean_token (entity_prefix entity) = true.
Proof.
  induction entity as [|c rest IH]; [done|]. rewrite entity_prefix_cons.
  destruct (stop_char c) eqn:Hc; [done|].
  cbn [clean_token]. by rewrite Hc, IH.
Qed.

Lemma entity_prefix_split entity :
  ∃ rest, entity = entity_prefix entity +:+ rest ∧ stops rest.
Proof.
  induction entity as [|c entity IH].
  - by exists EmptyString.
  - rewrite entity_prefix_cons. destruct (stop_char c) eqn:Hc.
    + by exists (String c entity).
    + destruct IH as (rest & Hrest & Hstop). exists rest.
      split; [|done]. by rewrite append_cons, <- Hrest.
Qed.

Lemma entity_prefix_token token rest :
  clean_token token = true → stops rest →
  entity_prefix (token +:+ rest) = token.
Proof.
  intros Htoken Hrest. induction token as [|c token IH].
  - change (EmptyString +:+ rest) with rest.
    destruct rest as [|c rest]; [done|]. rewrite entity_prefix_cons.
    cbn [stops] in Hrest. by rewrite Hrest.
  - rewrite append_cons. cbn [clean_token] in Htoken. apply andb_true_iff in Htoken as [Hc Htoken].
    apply negb_true_iff in Hc. rewrite entity_prefix_cons, Hc.
    by rewrite IH.
Qed.

Lemma find_first c key rest :
  Py.char_in c key = false →
  Py.find c (key +:+ String c rest) = Z.of_nat (String.length key).
Proof.
  induction key as [|a key IH]; simpl.
  - by rewrite Ascii.eqb_refl.
  - destruct (Ascii.eqb c a); [done|]. intros Hkey. rewrite IH by done.
    destruct (String.length key); simpl; lia.
Qed.

Lemma find_absent c s : Py.char_in c s = false → Py.find c s = (-1)%Z.
Proof.
  induction s as [|a s IH]; [done|]. simpl.
  destruct (Ascii.eqb c a); [done|]. intros Hs. by rewrite IH.
Qed.

Lemma slice_from_app key rest :
  Py.slice_from (String.length key) (key +:+ rest) = rest.
Proof. induction key as [|a key IH]; [by destruct rest | done]. Qed.

(** X1.  The token [extract_entity] returns holds no white space and none
    of the characters [-=>!</], and it is the longest such prefix of the
    text it reads: that text is the token followed by nothing or by a
    stop character. *)
Theorem extract_entity_spec (line : string) :
  clean_token (extract_entity line) = true
  ∧ ∃ rest,
      Py.slice_from (Z.to_nat (Py.find ":" line + 2)) line
      = extract_entity line +:+ rest
      ∧ stops rest.
Proof.
  split; [apply entity_prefix_clean | apply entity_prefix_split].
Qed.

(** X2.  On a line made of a key without a colon, a colon, one more
    character, a token without stop characters and then nothing or a stop
    character and anything, [extract_entity] returns the token. *)
Theorem extract_entity_line (key : string) (sep : ascii)
    (token rest : string) :
  Py.char_in ":" key = false →
  clean_token token = true →
  stops rest →
  extract_entity (key +:+ String ":" (String sep (token +:+ rest))) = token.
Proof.
  intros Hkey Htoken Hrest. unfold extract_entity.
  rewrite find_first by done.
  replace (Z.to_nat (Z.of_nat (String.length key) + 2))
    with (String.length (key +:+ String ":" (String sep EmptyString))).
  2:{ clear. induction key as [|a key IH]; simpl; [done|]. rewrite IH. lia. }
  replace (key +:+ String ":" (String sep (token +:+ rest)))
    with ((key +:+ String ":" (String sep EmptyString)) +:+ (token +:+ rest)).
  2:{ clear. induction key as [|a key IH]; [done|].
      by rewrite !append_cons, IH. }
  rewrite slice_from_app. by apply entity_prefix_token.
Qed.

(** A provides line with a version. *)
Lemma extract_entity_line_witness :
  Py.char_in ":" (String Py.tab "provides") = false
  ∧ clean_token "lib:libz" = true
  ∧ stops " = 1.2"
  ∧ extract_entity
      (String Py.tab "provides" +:+ String ":" (String " " ("lib:libz" +:+ " = 1.2")))
    = "lib:libz".
Proof.
  split; [reflexivity|]. split; [reflexivity|]. split; [reflexivity|].
  exact (extract_entity_line (String Py.tab "provides") " " "lib:libz" " = 1.2"
           eq_refl eq_refl eq_refl).
Defined.

(** X3.  A line without any colon is read from its second character on:
    [find] answers -1 and the slice starts at index 1. *)
Theorem extract_entity_no_colon (c : ascii) (line : string) :
  Py.char_in ":" (String c line) = false →
  extract_entity (String c line) = entity_prefix line.
Proof.
  intros Hline. unfold extract_entity. by rewrite find_absent.
Qed.

Lemma extract_entity_no_colon_witness :
  Py.char_in ":" "xfoo bar" = false ∧ extract_entity "xfoo bar" = "foo".
Proof.
  split; [reflexivity|].
  exact (extract_entity_no_colon "x" "foo bar" eq_refl).
Defined.

(** ** [read_package] *)

Lemma prefix_two (a b : ascii) (p l : string) :
  String.prefix (String a (String b p)) l = true →
  ∃ l', l = String a (String b l').
Proof.
  destruct l as [|x [|y l]]; simpl; [done| |].
  - by destruct (ascii_dec a x).
  - destruct (ascii_dec a x) as [->|]; [|done].
    destruct (ascii_dec b y) as [->|]; [|done]. eauto.
Qed.

Lemma prefix_exclusive (a b b' : ascii) (p p' l : string) :
  b ≠ b' →
  String.prefix (String a (String b p)) l = true →
  String.prefix (String a (String b' p')) l = false.
Proof.
  intros Hb (l1 & ->)%prefix_two.
  destruct (String.prefix (String a (String b' p')) (String a (String b l1)))
    eqn:Hp; [|done].
  apply prefix_two in Hp as (l2 & [= ? ?]). done.
Qed.

(** What one line does to the record, by the prefix it starts with. *)
Lemma read_line_provides info line :
  Py.startswith line provides_prefix = true →
  read_line info line
  = {| name := name info; path := path info; requires := requires info;
       provides := provides info ∪ {[extract_entity line]} |}.
Proof.
  unfold provides_prefix, read_line. intros Hp. by rewrite Hp.
Qed.

Lemma read_line_requires info line :
  Py.startswith line requires_prefix = true
  ∨ Py.startswith line supplements_prefix = true →
  read_line info line
  = {| name := name info; path := path info;
       requires := requires info ∪ {[extract_entity line]};
       provides := provides info |}.
Proof.
  unfold requires_prefix, supplements_prefix, read_line, Py.startswith.
  intros [Hr|Hs].
  - rewrite (prefix_exclusive _ "r" "p" _ "rovides: " line (ltac:(done)) Hr).
    by rewrite Hr.
  - rewrite (prefix_exclusive _ "s" "p" _ "rovides: " line (ltac:(done)) Hs).
    by rewrite Hs, orb_true_r.
Qed.

Lemma read_line_name info line :
  Py.startswith line name_prefix = true →
  read_line info line
  = {| name := extract_entity line; path := path info;
       requires := requires info; provides := provides info |}.
Proof.
  unfold name_prefix, read_line, Py.startswith. intros Hn.
  rewrite (prefix_exclusive _ "n" "p" _ "rovides: " line (ltac:(done)) Hn).
  rewrite (prefix_exclusive _ "n" "r" _ "equires: " line (ltac:(done)) Hn).
  rewrite (prefix_exclusive _ "n" "s" _ "upplements: " line (ltac:(done)) Hn).
  by rewrite Hn.
Qed.

Lemma read_line_other info line :
  Py.startswith line provides_prefix = false →
  Py.startswith line requires_prefix = false →
  Py.startswith line supplements_prefix = false →
  Py.startswith line name_prefix = false →
  read_line info line = info.
Proof.
  unfold provides_prefix, requires_prefix, supplements_prefix, name_prefix,
    read_line.
  intros Hp Hr Hs Hn. by rewrite Hp, Hr, Hs, Hn.
Qed.

Lemma read_line_prefixes line :
  (Py.startswith line provides_prefix = true →
   Py.startswith line requires_prefix = false
   ∧ Py.startswith line supplements_prefix = false
   ∧ Py.startswith line name_prefix = false)
  ∧ (Py.startswith line requires_prefix = true
     ∨ Py.startswith line supplements_prefix = true →
     Py.startswith line provides_prefix = false
     ∧ Py.startswith line name_prefix = false)
  ∧ (Py.startswith line name_prefix = true →
     Py.startswith line provides_prefix = false
     ∧ Py.startswith line requires_prefix = false
     ∧ Py.startswith line supplements_prefix = false).
Proof.
  unfold provides_prefix, requires_prefix, supplements_prefix, name_prefix,
    Py.startswith.
  split; [|split].
  - intros Hp. repeat split; by eapply prefix_exclusive; [|exact Hp].
  - intros [H|H]; split; by eapply prefix_exclusive; [|exact H].
  - intros Hn. repeat split; by eapply prefix_exclusive; [|exact Hn].
Qed.

Lemma read_lines_spec info lines :
  let info' := foldl read_line info lines in
  path info' = path info
  ∧ provides info'
    = provides info
      ∪ list_to_set (extract_entity
          <$> filter (λ l, Py.startswith l provides_prefix = true) lines)
  ∧ requires info'
    = requires info
      ∪ list_to_set (extract_entity
          <$> filter (λ l, Py.startswith l requires_prefix = true
                           ∨ Py.startswith l supplements_prefix = true) lines)
  ∧ name info'
    = default (name info)
        (last (extract_entity
           <$> filter (λ l, Py.startswith l name_prefix = true) lines)).
Proof.
  revert info. induction lines as [|line lines IH]; intros info.
  - simpl. repeat split; set_solver.
  - cbn [foldl]. destruct (IH (read_line info line)) as (Hpath & Hp & Hr & Hn).
    cbv zeta. rewrite Hpath, Hp, Hr, Hn. clear IH Hpath Hp Hr Hn.
    set (Pp := λ l, Py.startswith l provides_prefix = true).
    set (Pr := λ l, Py.startswith l requires_prefix = true
                    ∨ Py.startswith l supplements_prefix = true).
    set (Pn := λ l, Py.startswith l name_prefix = true).
    destruct (read_line_prefixes line) as (HP & HR & HN).
    destruct (decide (Pp line)) as [Hp|Hp].
    { destruct (HP Hp) as (Hr & Hs & Hn).
      rewrite read_line_provides by done.
      rewrite (filter_cons_True Pp) by done.
      rewrite (filter_cons_False Pr)
        by (unfold Pr; rewrite Hr, Hs; intros [?|?]; done).
      rewrite (filter_cons_False Pn) by (unfold Pn; by rewrite Hn).
      rewrite fmap_cons. simpl. repeat split; set_solver. }
    destruct (decide (Pr line)) as [Hrs|Hrs].
    { destruct (HR Hrs) as (_ & Hn).
      rewrite read_line_requires by done.
      rewrite (filter_cons_False Pp) by done.
      rewrite (filter_cons_True Pr) by done.
      rewrite (filter_cons_False Pn) by (unfold Pn; by rewrite Hn).
      rewrite fmap_cons. simpl. repeat split; set_solver. }
    destruct (decide (Pn line)) as [Hn|Hn].
    { rewrite read_line_name by done.
      rewrite (filter_cons_False Pp) by done.
      rewrite (filter_cons_False Pr) by done.
      rewrite (filter_cons_True Pn) by done.
      rewrite fmap_cons, last_cons. simpl. repeat split; try done.
      by destruct (last _). }
    rewrite (filter_cons_False Pp) by done.
    rewrite (filter_cons_False Pr) by done.
    rewrite (filter_cons_False Pn) by done.
    rewrite read_line_other; [done| | | |].
    + unfold Pp in Hp. by destruct (Py.startswith line provides_prefix).
    + destruct (Py.startswith line requires_prefix) eqn:E; [|done].
      exfalso. apply Hrs. left. exact E.
    + destruct (Py.startswith line supplements_prefix) eqn:E; [|done].
      exfalso. apply Hrs. right. exact E.
    + unfold Pn in Hn. by destruct (Py.startswith line name_prefix).
Qed.

Global Instance package_ok_dec w file : Decision (package_ok w file).
Proof. unfold package_ok. apply _. Defined.

Lemma read_package_cases (w : platform) (package : string) :
  read_package w package
  = if decide (package_ok w package)
    then Ok (parse_package package (run_package_list w package).2)
    else Raise (CalledProcessError "/bin/package").
Proof.
  unfold read_package, parse_package.
  case_decide as Hrc; unfold package_ok in Hrc;
    destruct (run_package_list w package) as [returncode stdout];
    simpl in *.
  - by rewrite Hrc.
  - by apply Z.eqb_neq in Hrc as ->.
Qed.

(** X4.  [read_package] raises [CalledProcessError] when the package query
    exits with a non-zero status.  Otherwise it returns a record whose path
    is the file it was given, whose provides set holds the tokens of the
    provides lines, whose requires set holds the tokens of the requires
    and of the supplements lines alike, and whose name is the token of the
    last name line, or the empty string when there is none; every other
    line is ignored. *)
Theorem read_package_spec (w : platform) (package : string) :
  let lines := Py.splitlines (run_package_list w package).2 in
  ((run_package_list w package).1 ≠ 0%Z →
   read_package w package = Raise (CalledProcessError "/bin/package"))
  ∧ (package_ok w package →
     ∃ info,
       read_package w package = Ok info
       ∧ info = parse_package package (run_package_list w package).2
       ∧ path info = package
       ∧ provides info
         = list_to_set (extract_entity
             <$> filter (λ l, Py.startswith l provides_prefix = true) lines)
       ∧ requires info
         = list_to_set (extract_entity
             <$> filter (λ l, Py.startswith l requires_prefix = true
                              ∨ Py.startswith l supplements_prefix = true)
                        lines)
       ∧ name info
         = default EmptyString
             (last (extract_entity
                <$> filter (λ l, Py.startswith l name_prefix = true) lines))).
Proof.
  intros lines. unfold read_package, package_ok. subst lines.
  destruct (run_package_list w package) as [returncode stdout]. simpl.
  split.
  - intros Hrc. by apply Z.eqb_neq in Hrc as ->.
  - intros ->. simpl. eexists. split; [done|]. split; [done|].
    destruct (read_lines_spec
                {| name := EmptyString; path := package;
                   requires := ∅; provides := ∅ |}
                (Py.splitlines stdout)) as (Hpath & Hp & Hr & Hn).
    simpl in *. rewrite Hpath, Hp, Hr, Hn.
    repeat split; set_solver.
Qed.

(** A package file whose query succeeds and lists one name line. *)
Lemma read_package_spec_witness :
  package_ok stray_platform "stray.hpkg"
  ∧ ∃ info, read_package stray_platform "stray.hpkg" = Ok info
            ∧ path info = "stray.hpkg".
Proof.
  assert (package_ok stray_platform "stray.hpkg") as Hok by reflexivity.
  split; [exact Hok|].
  destruct (proj2 (read_package_spec stray_platform "stray.hpkg") Hok)
    as (info & Hread & _ & Hpath & _).
  exists info. split; [exact Hread | exact Hpath].
Defined.

(** ** [finddir] and [get_packages] *)

Lemma drop_last_snoc (s : string) (c : ascii) :
  Py.drop_last (s +:+ String c EmptyString) = s.
Proof.
  induction s as [|a s IH]; [done|]. rewrite append_cons.
  cbn [Py.drop_last]. rewrite IH.
  destruct s; reflexivity.
Qed.

(** X5.  When the directory query succeeds, [finddir] returns its output
    without the last character, whatever that character is: the directory
    name when the output is the name followed by a newline. *)
Theorem finddir_success (w : platform) (which dir : string) (c : ascii) :
  run_finddir w which = (0%Z, dir +:+ String c EmptyString) →
  finddir w which = dir.
Proof.
  intros Hrun. unfold finddir. rewrite Hrun. simpl. apply drop_last_snoc.
Qed.

Lemma finddir_success_witness :
  run_finddir stray_platform "B_SYSTEM_PACKAGES_DIRECTORY"
  = (0%Z, "/boot/system/packages" +:+ String Py.newline EmptyString)
  ∧ finddir stray_platform "B_SYSTEM_PACKAGES_DIRECTORY"
    = "/boot/system/packages".
Proof.
  split; [reflexivity|].
  exact (finddir_success stray_platform "B_SYSTEM_PACKAGES_DIRECTORY"
           "/boot/system/packages" Py.newline eq_refl).
Defined.

Lemma rmap_app {A B : Type} (f : A → result B) (l1 l2 : list A) :
  rmap f (l1 ++ l2)
  = (b1 ←r rmap f l1; b2 ←r rmap f l2; Ok (b1 ++ b2)).
Proof.
  induction l1 as [|a l1 IH]; simpl.
  - by destruct (rmap f l2).
  - destruct (f a) as [b|e]; [|done]. simpl. rewrite IH.
    destruct (rmap f l1) as [b1|e]; [|done]. simpl.
    by destruct (rmap f l2).
Qed.

(** A loop whose body either succeeds or raises one fixed exception
    succeeds on all elements or raises that exception. *)
Lemma rmap_all_or_raise {A B : Type} (f : A → result B) (g : A → B)
    (P : A → Prop) `{∀ a, Decision (P a)} (e : exn) (l : list A) :
  (∀ a, P a → f a = Ok (g a)) →
  (∀ a, ¬ P a → f a = Raise e) →
  rmap f l = if decide (Forall P l) then Ok (g <$> l) else Raise e.
Proof.
  intros Hok Hraise. induction l as [|a l IH].
  - cbn [rmap]. case_decide as Hf; [done|]. destruct Hf. constructor.
  - cbn [rmap]. destruct (decide (P a)) as [Ha|Ha].
    + rewrite (Hok a Ha), IH. cbn [rbind].
      destruct (decide (Forall P l)) as [Hl|Hl]; cbn [rbind].
      * case_decide as Hf; [reflexivity|]. destruct Hf. by constructor.
      * case_decide as Hf; [|done]. by inversion Hf.
    + rewrite (Hraise a Ha). cbn [rbind]. clear IH.
      case_decide as Hf; [|done]. by inversion Hf.
Qed.

Lemma list_bind_nil {A B : Type} (f : A → list B) : ([] : list A) ≫= f = [].
Proof. reflexivity. Qed.

Lemma get_packages_flat (w : platform) :
  get_packages w = rmap (read_package w) (discovered w).
Proof.
  unfold get_packages, discovered, package_dirs, packages_of_dir.
  rewrite !bind_cons, list_bind_nil, app_nil_r, rmap_app. simpl.
  destruct (rmap (read_package w) (glob_hpkg w (Path (finddir w _))))
    as [b1|e]; [|done]. simpl.
  destruct (rmap (read_package w) (glob_hpkg w (Path (finddir w _))))
    as [b2|e]; [|done]. simpl.
  by rewrite app_nil_r.
Qed.

Lemma get_packages_cases (w : platform) :
  get_packages w
  = if decide (Forall (package_ok w) (discovered w))
    then Ok ((λ file, parse_package file (run_package_list w file).2)
             <$> discovered w)
    else Raise (CalledProcessError "/bin/package").
Proof.
  rewrite get_packages_flat. apply rmap_all_or_raise.
  - intros file Hok. by rewrite read_package_cases, decide_True.
  - intros file Hok. by rewrite read_package_cases, decide_False.
Qed.

Lemma parse_package_path file stdout : path (parse_package file stdout) = file.
Proof.
  unfold parse_package.
  by destruct (read_lines_spec
                 {| name := EmptyString; path := file;
                    requires := ∅; provides := ∅ |}
                 (Py.splitlines stdout)) as (-> & _).
Qed.

Lemma parse_package_paths (out : string → string) (files : list string) :
  path <$> ((λ file, parse_package file (out file)) <$> files) = files.
Proof.
  induction files as [|file files IH]; [done|].
  rewrite !fmap_cons, IH. by rewrite parse_package_path.
Qed.

(** X6.  Package discovery is all or nothing: if the query of any one of
    the package files found fails, [get_packages] raises
    [CalledProcessError] and returns no package at all; otherwise it
    returns one record per file found, the files of the system directory
    before those of the user directory, each in the order of the
    directory listing and with the file as its path. *)
Theorem get_packages_spec (w : platform) :
  discovered w
  = glob_hpkg w (Path (finddir w "B_SYSTEM_PACKAGES_DIRECTORY"))
    ++ glob_hpkg w (Path (finddir w "B_USER_PACKAGES_DIRECTORY"))
  ∧ (¬ Forall (package_ok w) (discovered w) →
     get_packages w = Raise (CalledProcessError "/bin/package"))
  ∧ (Forall (package_ok w) (discovered w) →
     ∃ packages,
       get_packages w = Ok packages
       ∧ packages
         = (λ file, parse_package file (run_package_list w file).2)
           <$> discovered w
       ∧ path <$> packages = discovered w).
Proof.
  split; [|split].
  - unfold discovered, package_dirs.
    by rewrite !bind_cons, list_bind_nil, app_nil_r.
  - intros Hbad. by rewrite get_packages_cases, decide_False.
  - intros Hall. rewrite get_packages_cases, decide_True by done.
    eexists. split; [done|]. split; [done|]. apply parse_package_paths.
Qed.

Lemma get_packages_spec_witness :
  Forall (package_ok stray_platform) (discovered stray_platform)
  ∧ ∃ packages, get_packages stray_platform = Ok packages
                ∧ path <$> packages = discovered stray_platform.
Proof.
  assert (Forall (package_ok stray_platform) (discovered stray_platform))
    as Hall by (apply (bool_decide_unpack _); vm_compute; exact I).
  split; [exact Hall|].
  destruct (proj2 (proj2 (get_packages_spec stray_platform)) Hall)
    as (packages & Hget & _ & Hpath).
  exists packages. split; [exact Hget | exact Hpath].
Defined.

Lemma parse_package_clean (file stdout : string) :
  let info := parse_package file stdout in
  clean_token (name info) = true
  ∧ (∀ c, c ∈ provides info → clean_token c = true)
  ∧ (∀ c, c ∈ requires info → clean_token c = true).
Proof.
  unfold parse_package.
  destruct (read_lines_spec
              {| name := EmptyString; path := file;
                 requires := ∅; provides := ∅ |}
              (Py.splitlines stdout)) as (_ & Hp & Hr & Hn).
  cbv zeta. rewrite Hp, Hr, Hn. simpl. split; [|split].
  - destruct (last _) as [n|] eqn:Hlast; [|done]. simpl.
    apply last_Some_elem_of, list_elem_of_fmap in Hlast as (l & -> & _).
    apply entity_prefix_clean.
  - intros c [Hc|Hc]%elem_of_union; [by apply not_elem_of_empty in Hc|].
    apply elem_of_list_to_set, list_elem_of_fmap in Hc as (l & -> & _).
    apply entity_prefix_clean.
  - intros c [Hc|Hc]%elem_of_union; [by apply not_elem_of_empty in Hc|].
    apply elem_of_list_to_set, list_elem_of_fmap in Hc as (l & -> & _).
    apply entity_prefix_clean.
Qed.

(** X7.  No package record that discovery returns holds a white space or
    one of the characters [-=>!</] in its name or in any capability it
    provides or requires: version constraints and decorations never get
    into the sets the graph is built from. *)
Theorem get_packages_clean (w : platform) (packages : list package_info) :
  get_packages w = Ok packages →
  ∀ p, p ∈ packages →
       clean_token (name p) = true
       ∧ (∀ c, c ∈ provides p → clean_token c = true)
       ∧ (∀ c, c ∈ requires p → clean_token c = true).
Proof.
  rewrite get_packages_cases. case_decide; [|done].
  intros [= <-] p (file & -> & _)%list_elem_of_fmap.
  apply parse_package_clean.
Qed.

Lemma get_packages_clean_witness :
  get_packages stray_platform
  = Ok [{| name := "stray"; path := "stray.hpkg";
           requires := ∅; provides := ∅ |}]
  ∧ clean_token "stray" = true.
Proof.
  assert (get_packages stray_platform
          = Ok [{| name := "stray"; path := "stray.hpkg";
                   requires := ∅; provides := ∅ |}]) as Hget
    by (vm_compute; reflexivity).
  split; [exact Hget|].
  exact (proj1 (get_packages_clean stray_platform _ Hget
                  {| name := "stray"; path := "stray.hpkg";
                     requires := ∅; provides := ∅ |}
                  (list_elem_of_here _ _))).
Defined.

(** ** The commands and their exceptions *)

(** X8.  What the two commands can end with.  [graph --all-requirements]
    without a package name is a usage error, raised before any package is
    looked for.  Otherwise a command raises [CalledProcessError] exactly
    when the query of a package file found fails, and else returns its
    output: no [KeyError] of a dictionary lookup ever escapes, and the
    work loop of the closure traversal never fails to end. *)
Theorem commands_outcome (a : args) (w : platform) :
  let usage := all_requirements a = true ∧ package a = [] in
  let all_ok := Forall (package_ok w) (discovered w) in
  (usage →
   do_graph a w
   = Some (Raise (UsageError
       "a package list is required with the --all-requirements option")))
  ∧ (¬ usage → ¬ all_ok →
     do_graph a w = Some (Raise (CalledProcessError "/bin/package")))
  ∧ (¬ usage → all_ok → ∃ out, do_graph a w = Some (Ok out))
  ∧ (¬ all_ok → do_leaves a w = Raise (CalledProcessError "/bin/package"))
  ∧ (all_ok → ∃ out, do_leaves a w = Ok out).
Proof.
  intros usage all_ok. subst usage all_ok.
  unfold do_graph, do_requirements_graph, do_level1_graph, do_leaves.
  rewrite get_packages_cases.
  split; [|split; [|split; [|split]]].
  - intros [-> ->]. done.
  - intros Husage Hbad. rewrite decide_False by done.
    destruct (all_requirements a); [|done].
    destruct (package a); [|done]. destruct Husage. done.
  - intros Husage Hall. rewrite decide_True by done.
    destruct (all_requirements a) eqn:Hreq.
    + destruct (package a) as [|n l] eqn:Hpk; [destruct Husage; done|].
      destruct (requirements_graph_Ok a
                  ((λ file, parse_package file (run_package_list w file).2)
                   <$> discovered w)) as (final & _ & _ & ->).
      by eexists.
    + simpl. rewrite level1_graph_Ok. by eexists.
  - intros Hbad. by rewrite decide_False.
  - intros Hall. rewrite decide_True by done. simpl. by eexists.
Qed.

(** On [stray_platform] every package query succeeds. *)
Lemma commands_outcome_witness :
  Forall (package_ok stray_platform) (discovered stray_platform)
  ∧ ¬ (all_requirements bounded_all = true ∧ package bounded_all = [])
  ∧ ∃ out, do_graph bounded_all stray_platform = Some (Ok out).
Proof.
  assert (Forall (package_ok stray_platform) (discovered stray_platform))
    as Hall by (apply (bool_decide_unpack _); vm_compute; exact I).
  assert (¬ (all_requirements bounded_all = true ∧ package bounded_all = []))
    as Husage by (intros [Hreq _]; discriminate Hreq).
  split; [exact Hall|]. split; [exact Husage|].
  exact (proj1 (proj2 (proj2 (commands_outcome bounded_all stray_platform)))
           Husage Hall).
Defined.

(** ** More on the bounded traversal *)

(** X9.  With no package named, every known package is of interest: there
    are no error nodes and no outside nodes, the edges are exactly the
    pairs of a package and a provider of a capability it requires, and only
    edges are printed between the opening lines and the closing brace. *)
Theorem bounded_all_packages (a : args) (packages : list package_info) :
  package a = [] →
  level1_errors a packages = ∅
  ∧ level1_outside a packages = ∅
  ∧ (∀ s d, (s, d) ∈ level1_edges a packages
            ↔ dep_of (build_package_map packages)
                (build_providers packages) s d)
  ∧ level1_graph a packages
    = Ok ([Line "digraph {"; Line "node [style=filled]"]
          ++ (if i_know_what_im_doing a then [] else [WarningLabel])
          ++ ((λ edge, Edge edge.1 edge.2) <$> level1_edges a packages)
          ++ [Line "}"]).
Proof.
  intros Hpk.
  destruct (level1_spec a packages) as (HE & HO & HR).
  destruct (level1_names_known a packages) as (HEk & HOk).
  assert (level1_interest a (build_package_map packages)
          = dom (build_package_map packages)) as Hinterest
    by (unfold level1_interest; by rewrite Hpk).
  rewrite Hinterest in HE, HO, HR.
  assert (level1_errors a packages = ∅) as Herr.
  { apply set_eq. intros x. rewrite HR, elem_of_dom. split.
    - intros [[? Hx] Hnone]. congruence.
    - intros Hx. by apply not_elem_of_empty in Hx. }
  assert (level1_outside a packages = ∅) as Hout.
  { apply set_eq. intros x. split.
    - intros Hx. exfalso. pose proof (HOk x Hx) as Hknown.
      apply HO in Hx as [Hx _]. by apply Hx, elem_of_dom.
    - intros Hx. by apply not_elem_of_empty in Hx. }
  split; [done|]. split; [done|]. split.
  - intros s d. rewrite HE. split.
    + intros [[_ Hdep]|(Hs & _ & Hdep)]; [done|].
      exfalso. apply Hs, elem_of_dom.
      by destruct (dependent_known _ _
                     (λ c n, index_names_known requires packages c n)
                     d s Hdep).
    + intros Hdep. left. split; [|done]. apply elem_of_dom.
      by destruct (dep_known _ _
                     (λ c n, index_names_known provides packages c n)
                     s d Hdep).
  - rewrite level1_graph_Ok, Herr, Hout. unfold level1_statements.
    by rewrite !bool_decide_eq_true_2 by done.
Qed.

Lemma bounded_all_packages_witness :
  package bounded_all = []
  ∧ level1_outside bounded_all scenario = ∅
  ∧ level1_errors bounded_all scenario = ∅.
Proof.
  split; [reflexivity|].
  destruct (bounded_all_packages bounded_all scenario eq_refl)
    as (Herr & Hout & _).
  split; [exact Hout | exact Herr].
Defined.

(** X10.  The bounded graph stays at the border of the set of interest:
    every edge has an end in the set and both its ends are known packages;
    the outside nodes are known packages outside the set, each an end of an
    edge whose other end is in the set; the error nodes are the names of
    the set that match no package; no name is both. *)
Theorem bounded_border (a : args) (packages : list package_info) :
  let package_map := build_package_map packages in
  let interest := level1_interest a package_map in
  (∀ s d, (s, d) ∈ level1_edges a packages →
          (s ∈ interest ∨ d ∈ interest)
          ∧ is_Some (package_map !! s) ∧ is_Some (package_map !! d))
  ∧ (∀ x, x ∈ level1_outside a packages →
          (x ∉ interest) ∧ is_Some (package_map !! x)
          ∧ ∃ p, p ∈ interest
                 ∧ ((p, x) ∈ level1_edges a packages
                    ∨ (x, p) ∈ level1_edges a packages))
  ∧ (∀ x, x ∈ level1_errors a packages
          ↔ x ∈ interest ∧ package_map !! x = None)
  ∧ level1_errors a packages ## level1_outside a packages.
Proof.
  intros package_map interest.
  destruct (level1_spec a packages) as (HE & HO & HR).
  destruct (level1_names_known a packages) as (HEk & HOk).
  fold package_map interest in HE, HO, HR, HEk, HOk.
  split; [|split; [|split]].
  - intros s d Hsd. split; [|by apply HEk].
    apply HE in Hsd as [[? _]|(_ & ? & _)]; auto.
  - intros x Hx. pose proof (HOk x Hx) as Hknown.
    apply HO in Hx as (Hout & p & Hp & Hdep).
    split; [done|]. split; [done|]. exists p. split; [done|].
    destruct Hdep as [Hdep|Hdep]; [left | right]; apply HE; auto.
  - done.
  - intros x [_ Hnone]%HR [? Hknown]%HOk. congruence.
Qed.

(** The border of B in the scenario. *)
Lemma bounded_border_witness :
  ("B", "A") ∈ level1_edges bounded_B scenario
  ∧ ("B" ∈ level1_interest bounded_B (build_package_map scenario)
     ∨ "A" ∈ level1_interest bounded_B (build_package_map scenario)).
Proof.
  assert (("B", "A") ∈ level1_edges bounded_B scenario) as Hin
    by (apply (bool_decide_unpack _); vm_compute; exact I).
  split; [exact Hin|].
  exact (proj1 (proj1 (bounded_border bounded_B scenario) "B" "A" Hin)).
Defined.


(** X11.  Drawing every edge changes how often a pair is listed, not which
    pairs, outside nodes and error nodes there are: two command lines that
    name the same packages give the same ones. *)
Theorem bounded_modes_agree (a a' : args) (packages : list package_info) :
  package a = package a' →
  (∀ s d, (s, d) ∈ level1_edges a packages ↔ (s, d) ∈ level1_edges a' packages)
  ∧ level1_outside a packages = level1_outside a' packages
  ∧ level1_errors a packages = level1_errors a' packages.
Proof.
  intros Hpk.
  destruct (level1_spec a packages) as (HE & HO & HR).
  destruct (level1_spec a' packages) as (HE' & HO' & HR').
  assert (level1_interest a (build_package_map packages)
          = level1_interest a' (build_package_map packages)) as Hinterest
    by (unfold level1_interest; by rewrite Hpk).
  rewrite Hinterest in HE, HO, HR.
  split; [|split].
  - intros s d. by rewrite HE, HE'.
  - apply set_eq. intros x. by rewrite HO, HO'.
  - apply set_eq. intros x. by rewrite HR, HR'.
Qed.

Lemma bounded_modes_agree_witness :
  package all_edges_Q = package all_edges_Q
  ∧ level1_outside all_edges_Q [pkg_P; pkg_Q]
    = level1_outside
        {| i_know_what_im_doing := false; all_edges := false;
           all_requirements := false; package := ["Q"] |} [pkg_P; pkg_Q].
Proof.
  split; [reflexivity|].
  exact (proj1 (proj2 (bounded_modes_agree all_edges_Q
           {| i_know_what_im_doing := false; all_edges := false;
              all_requirements := false; package := ["Q"] |}
           [pkg_P; pkg_Q] eq_refl))).
Defined.

(** ** More on the closure traversal *)

(** X12.  When the work loop has ended, whatever was popped: the visited
    names are exactly the names reachable from the seeds through the
    providers of what known packages require; every seed is visited; and
    both ends of every printed edge are visited known packages. *)
Theorem closure_end_reach (packages : list package_info)
    (seeds : gset string) (final : closure_state) :
  let package_map := build_package_map packages in
  let providers := build_providers packages in
  closure_reachable packages seeds final →
  graph_packages final = ∅ →
  (∀ n, n ∈ visited final ↔ closure_reach package_map providers seeds n)
  ∧ seeds ⊆ visited final
  ∧ (∀ p d c, LabelledEdge p d c ∈ printed final →
              p ∈ visited final ∧ d ∈ visited final
              ∧ is_Some (package_map !! p) ∧ is_Some (package_map !! d)).
Proof.
  intros package_map providers Hreach Hempty.
  pose proof (closure_reachable_inv _ _ _ Hreach) as Hinv.
  fold package_map providers in Hinv.
  split; [|split].
  - intros n. by apply closure_end_visited.
  - intros n Hn. pose proof (inv_seeds _ _ _ _ Hinv n Hn). set_solver.
  - intros p d c Hin. apply occ_pos in Hin.
    rewrite (inv_edges _ _ _ _ Hinv) in Hin.
    destruct (package_map !! p) as [info|] eqn:Hp; [|lia].
    case_decide as Hpc; [|lia]. destruct Hpc as [Hpv Hc].
    apply occ_pos in Hin.
    split; [done|]. split; [|split; [done|]].
    + pose proof (inv_closed _ _ _ _ Hinv p info c d Hpv Hp Hc Hin).
      set_solver.
    + by eapply index_names_known.
Qed.

(** The run of the scenario seeded with C ends in a reachable state. *)
Lemma closure_end_reach_witness :
  ∃ final,
    closure_reachable scenario {["C"]} final
    ∧ graph_packages final = ∅
    ∧ ({["C"]} : gset string) ⊆ visited final.
Proof.
  destruct (closure_run_ends scenario {["C"]}) as (final & _ & Hreach & Hempty).
  exists final. split; [exact Hreach|]. split; [exact Hempty|].
  exact (proj1 (proj2 (closure_end_reach scenario {["C"]} final Hreach Hempty))).
Defined.

(** ** More on escaping *)





(** ** Leaves and the graph of all packages *)

Lemma all_packages_edges (a : args) (packages : list package_info) s d :
  package a = [] →
  (s, d) ∈ level1_edges a packages
  ↔ dep_of (build_package_map packages) (build_providers packages) s d.
Proof.
  intros Hpk. destruct (level1_spec a packages) as (HE & _ & _).
  assert (level1_interest a (build_package_map packages)
          = dom (build_package_map packages)) as Hinterest
    by (unfold level1_interest; by rewrite Hpk).
  rewrite Hinterest in HE. rewrite HE. split.
  - intros [[_ Hdep]|(Hs & _ & Hdep)]; [done|].
    exfalso. apply Hs, elem_of_dom.
    by destruct (dependent_known _ _
                   (λ c n, index_names_known requires packages c n)
                   d s Hdep).
  - intros Hdep. left. split; [|done]. apply elem_of_dom.
    by destruct (dep_known _ _
                   (λ c n, index_names_known provides packages c n)
                   s d Hdep).
Qed.

(** X14.  The two commands agree: when no two packages share a name, the
    leaves reported by [leaves] are exactly the packages that no edge of
    the graph of all packages points to. *)
Theorem leaves_no_incoming (a : args) (packages : list package_info)
    (p : package_info) :
  NoDup (name <$> packages) →
  package a = [] →
  p ∈ packages →
  p ∈ leaves packages ↔ ∀ s, (s, name p) ∉ level1_edges a packages.
Proof.
  intros Hnames Hpk Hp. rewrite leaves_filter, list_elem_of_filter.
  split.
  - intros [Hdisj _] s Hin.
    apply all_packages_edges in Hin as (info & c & Hinfo & Hc & Hprov);
      [|done].
    apply package_map_Some in Hinfo as [Hinfo _].
    apply (build_index_unique provides packages c p Hnames Hp) in Hprov.
    apply (Hdisj c Hprov). apply elem_of_all_required. eauto.
  - intros Hnone. split; [|done].
    intros c Hc (q & Hq & Hreq)%elem_of_all_required.
    apply (Hnone (name q)). apply all_packages_edges; [done|].
    exists q, c. split; [by apply package_map_unique|].
    split; [done|]. by apply (build_index_unique provides packages c p).
Qed.

(** C is the leaf of the scenario and no edge points to it. *)
Lemma leaves_no_incoming_witness :
  NoDup (name <$> scenario)
  ∧ package bounded_all = []
  ∧ pkg_C ∈ scenario
  ∧ (pkg_C ∈ leaves scenario
     ↔ ∀ s, (s, name pkg_C) ∉ level1_edges bounded_all scenario).
Proof.
  assert (NoDup (name <$> scenario)) as Hnames
    by (apply (bool_decide_unpack _); vm_compute; exact I).
  assert (pkg_C ∈ scenario) as Hin by (right; right; left).
  split; [exact Hnames|]. split; [reflexivity|]. split; [exact Hin|].
  exact (leaves_no_incoming bounded_all scenario pkg_C Hnames eq_refl Hin).
Defined.

(** ** The closure graph inside the graph of all packages *)

(** X15.  The two graph commands agree: in every state of the work loop
    of the closure traversal, the pairs joined by a printed edge are exactly
    the edges of the graph of all packages that leave a visited package;
    the closure graph is the part of the full graph that starts at the
    packages visited so far. *)
Theorem closure_edges_in_full_graph (a : args)
    (packages : list package_info) (seeds : gset string)
    (st : closure_state) (p d : string) :
  closure_reachable packages seeds st →
  package a = [] →
  (∃ c, LabelledEdge p d c ∈ printed st)
  ↔ p ∈ visited st ∧ (p, d) ∈ level1_edges a packages.
Proof.
  intros Hinv%closure_reachable_inv Hpk.
  rewrite all_packages_edges by done. split.
  - intros (c & Hin). apply occ_pos in Hin.
    rewrite (inv_edges _ _ _ _ Hinv) in Hin.
    destruct (build_package_map packages !! p) as [info|] eqn:Hp; [|lia].
    case_decide as Hpc; [|lia]. destruct Hpc as [Hpv Hc].
    apply occ_pos in Hin. split; [done|]. by exists info, c.
  - intros (Hpv & info & c & Hinfo & Hc & Hd). exists c.
    apply occ_pos. rewrite (inv_edges _ _ _ _ Hinv), Hinfo.
    rewrite decide_True by done. by apply occ_pos.
Qed.

(** The end state of the scenario seeded with C: C is visited and its edge
    to B is printed. *)
Lemma closure_edges_in_full_graph_witness :
  closure_reachable scenario {["C"]} scenario_end
  ∧ package bounded_all = []
  ∧ LabelledEdge "C" "B" "y" ∈ printed scenario_end
  ∧ "C" ∈ visited scenario_end
  ∧ ("C", "B") ∈ level1_edges bounded_all scenario.
Proof.
  assert (LabelledEdge "C" "B" "y" ∈ printed scenario_end) as Hprinted
    by (apply (bool_decide_unpack _); vm_compute; exact I).
  split; [exact closure_scenario_end|]. split; [reflexivity|].
  split; [exact Hprinted|].
  exact (proj1 (closure_edges_in_full_graph bounded_all scenario {["C"]}
                  scenario_end "C" "B" closure_scenario_end eq_refl)
           (ex_intro _ "y" Hprinted)).
Defined.
